(** * collect_code: a shallow embedding of [collect_files] and its caller

    The development follows [collect_code.py].  Python strings are Rocq
    strings, a [pathlib.Path] is the list of its name components, the two
    exclusion sets are finite sets, and the directory tree is the tree that
    [os.walk] observes.  Reading a file and listing a directory are effects:
    every run carries a journal of the filesystem operations it performs. *)

From Stdlib Require Import Ascii String.
From stdpp Require Import base option list strings gmap sets.

Local Open Scope string_scope.
Local Open Scope list_scope.
Set Warnings "-register-all".

(** ** Strings *)

(** The line feed of the f-string ["[...]\n...\n\n"]. *)
Definition nl : string := String (ascii_of_nat 10) EmptyString.

(** [s.endswith(suffix)]: the last [len(suffix)] characters of [s] are
    [suffix]; the comparison is exact, character by character. *)
Definition endswith (s suffix : string) : bool :=
  let n := String.length s in
  let m := String.length suffix in
  (m <=? n)%nat && String.eqb (String.substring (n - m) m s) suffix.

(** [needle in hay] on strings. *)
Fixpoint contains (needle hay : string) : bool :=
  String.prefix needle hay ||
  match hay with
  | EmptyString => false
  | String _ hay' => contains needle hay'
  end.

(** ** Paths *)

(** A path is the list of its components, outermost first; the anchor of an
    absolute path is left out, so the root of the filesystem is [[]]. *)
Abbreviation path := (list string).

(** [PurePath.name]: the final component, the empty string when there is
    none. *)
Definition name (p : path) : string := default EmptyString (last p).

(** [Path(root) / file]. *)
Definition joinpath (root : path) (file : string) : path := root ++ [file].

(** [p.relative_to(base)]: [p] without the components of [base]; Python
    raises [ValueError] when [base] does not lead to [p], here [None]. *)
Fixpoint relative_to (p base : path) {struct base} : option path :=
  match base with
  | [] => Some p
  | b :: base' =>
      match p with
      | [] => None
      | c :: p' => if decide (b = c) then relative_to p' base' else None
      end
  end.

(** [str(p)] of a relative POSIX path. *)
Definition path_str (p : path) : string :=
  match p with
  | [] => "."
  | _ => String.concat "/" p
  end.

(** ** The filesystem as [os.walk] sees it *)

(** What [open(...).read()] does on a file: it yields the text, or raises an
    exception [e] of which the program uses only [str(e)]. *)
Inductive read_result :=
  | ReadOk (content : string)
  | ReadErr (e : string).

#[global] Instance read_result_eq_dec : EqDecision read_result.
Proof. solve_decision. Defined.

(** A directory is the pair [(dirs, files)] that [os.walk] yields for it,
    each list in the order of the directory listing, together with what lies
    beneath each subdirectory and what reading each file gives.  A
    subdirectory for which [os.walk] yields nothing (it cannot be listed, or
    it is a link, which is not followed) has nothing beneath it.  The walk
    goes down by name, and the names of a directory are distinct. *)
Inductive tree :=
  | Tree (dirs : list (string * tree)) (files : list (string * read_result)).

Definition dirs_of (t : tree) : list (string * tree) :=
  match t with Tree dirs _ => dirs end.

Definition files_of (t : tree) : list (string * read_result) :=
  match t with Tree _ files => files end.

(** ** Effects *)

(** The operations a run performs on the outside world. *)
Inductive event :=
  | EvScandir (dir : path)                      (* os.walk turns to a directory *)
  | EvOpenRead (file : path)                    (* open(file_path, "r") *)
  | EvWarning (file : path) (e : string)        (* logger.warning(...) *)
  | EvOpenWrite (file : path) (text : string).  (* open(output_file, "w") *)

(** The local state of a call of [collect_files]: the list [output_parts]
    and the journal so far. *)
Record state := State {
  output_parts : list string;
  journal : list event
}.

Definition log (ev : event) (st : state) : state :=
  State (output_parts st) (journal st ++ [ev]).

Definition append_part (s : string) (st : state) : state :=
  State (output_parts st ++ [s]) (journal st).

(** ** [collect_files] *)

Definition DEFAULT_EXCLUDE_DIRS : gset string :=
  {[ ".idea"; ".venv"; "venv"; "__pycache__"; ".env" ]}.

(** The placeholder of the [except] branch. *)
Definition placeholder (e : string) : string :=
  "<<Error reading file: " +:+ e +:+ ">>".

(** The [try] statement: read the file, or log a warning and take the
    placeholder as content.  No exception leaves it. *)
Definition read_content (file_path : path) (rd : read_result) (st : state)
  : string * state :=
  match rd with
  | ReadOk content => (content, log (EvOpenRead file_path) st)
  | ReadErr e =>
      (placeholder e, log (EvWarning file_path e) (log (EvOpenRead file_path) st))
  end.

(** [f"[{folder_path.name}/{rel_path}]\n{content}\n\n"]. *)
Definition format_part (folder_path rel_path : path) (content : string) : string :=
  "[" +:+ name folder_path +:+ "/" +:+ path_str rel_path +:+ "]" +:+ nl
      +:+ content +:+ nl +:+ nl.

Section collect.
Variable folder_path : path.
Variable exclude_files : gset path.
Variable exclude_dirs : gset string.
Variable all_files : bool.

(** The body of [for file in files]; [None] is an exception that leaves
    the function. *)
Definition visit_file (root : path) (file : string) (rd : read_result)
    (st : state) : option state :=
  if negb all_files && negb (endswith file ".py") then Some st
  else
    let file_path := joinpath root file in
    if decide (file_path ∈ exclude_files) then Some st
    else
      rel_path ← relative_to file_path folder_path;
      let '(content, st') := read_content file_path rd st in
      Some (append_part (format_part folder_path rel_path content) st').

Fixpoint visit_files (root : path) (files : list (string * read_result))
    (st : state) : option state :=
  match files with
  | [] => Some st
  | (file, rd) :: files' =>
      st' ← visit_file root file rd st;
      visit_files root files' st'
  end.

(** One round of the [os.walk] loop at directory [root], and the rounds
    for everything beneath it.  The directory is listed, its files are
    handled, and then the walk goes down into the subdirectories that
    [dirs[:] = [d for d in dirs if d not in exclude_dirs]] has kept, in
    their order. *)
Fixpoint walk (root : path) (t : tree) (st : state) : option state :=
  match t with
  | Tree dirs files =>
      st1 ← visit_files root files (log (EvScandir root) st);
      (fix descend (ds : list (string * tree)) (st : state) : option state :=
         match ds with
         | [] => Some st
         | (d, sub) :: ds' =>
             if decide (d ∈ exclude_dirs) then descend ds' st
             else
               st' ← walk (joinpath root d) sub st;
               descend ds' st'
         end) dirs st1
  end.

(** The call: a fresh [output_parts], the walk from [folder_path], and
    the join.  The result is paired with the journal of the call. *)
Definition collect_parts (t : tree) : option (list string * list event) :=
  st ← walk folder_path t (State [] []);
  Some (output_parts st, journal st).

Definition collect_files (t : tree) : option (string * list event) :=
  '(parts, tr) ← collect_parts t;
  Some (String.concat EmptyString parts, tr).
End collect.

(** ** The caller *)

(** The loop of [main] over the folders it was given, already resolved:
    a folder that is not a directory is skipped, every other one is
    collected with the script itself excluded and the default directory
    names added to the user's, and the texts are written, joined, to
    [collected_code.txt] in the working directory.  [is_dir] gives the
    tree of a path that is a directory; when the output file cannot be
    written the exception is raised again, here [None].  The messages that
    [main] logs are left out. *)
Section main.
Variable is_dir : path → option tree.
Variable can_write : path → bool.
Variable current_script : path.
Variable cwd : path.

Fixpoint collect_folders (exclude_dirs : gset string) (all_files : bool)
    (folders : list path) : option (list string * list event) :=
  match folders with
  | [] => Some ([], [])
  | folder_path :: folders' =>
      match is_dir folder_path with
      | None => collect_folders exclude_dirs all_files folders'
      | Some t =>
          '(text, tr) ← collect_files folder_path {[ current_script ]}
                           exclude_dirs all_files t;
          '(texts, tr') ← collect_folders exclude_dirs all_files folders';
          Some (text :: texts, tr ++ tr')
      end
  end.

Definition main (folders : list path) (exclude : list string)
    (all_files : bool) : option (list event) :=
  let exclude_dirs := DEFAULT_EXCLUDE_DIRS ∪ list_to_set exclude in
  let output_file := joinpath cwd "collected_code.txt" in
  '(output_content, tr) ← collect_folders exclude_dirs all_files folders;
  if can_write output_file
  then Some (tr ++ [EvOpenWrite output_file
                      (String.concat EmptyString output_content)])
  else None.
End main.

(** ** The walk, described *)

(** What the walk meets, in its order: a directory when it is listed, a
    file when the loop over [files] reaches it.  Paths are relative to the
    folder the walk started from. *)
Inductive visit :=
  | VDir (rel : path)
  | VFile (rel : path) (rd : read_result).

Fixpoint visits (exclude_dirs : gset string) (rel : path) (t : tree) : list visit :=
  match t with
  | Tree dirs files =>
      VDir rel :: ((λ f, VFile (joinpath rel f.1) f.2) <$> files) ++
      (fix below (ds : list (string * tree)) : list visit :=
         match ds with
         | [] => []
         | (d, sub) :: ds' =>
             if decide (d ∈ exclude_dirs) then below ds'
             else visits exclude_dirs (joinpath rel d) sub ++ below ds'
         end) dirs
  end.

(** The two tests a file has to pass, on its path relative to the folder. *)
Definition qualifies (folder_path : path) (exclude_files : gset path)
    (all_files : bool) (rel : path) : bool :=
  (all_files || endswith (name rel) ".py") &&
  bool_decide (folder_path ++ rel ∉ exclude_files).

(** The files that get a record, in the order of the walk. *)
Definition emitted (folder_path : path) (exclude_files : gset path)
    (exclude_dirs : gset string) (all_files : bool) (t : tree)
  : list (path * read_result) :=
  omap (λ v, match v with
             | VFile rel rd =>
                 if qualifies folder_path exclude_files all_files rel
                 then Some (rel, rd) else None
             | VDir _ => None
             end) (visits exclude_dirs [] t).

(** The content of a record: the text, or the placeholder. *)
Definition content_of (rd : read_result) : string :=
  match rd with
  | ReadOk content => content
  | ReadErr e => placeholder e
  end.

Definition record_of (folder_path : path) (x : path * read_result) : string :=
  format_part folder_path x.1 (content_of x.2).

(** The operations a visit causes. *)
Definition events_of (folder_path : path) (exclude_files : gset path)
    (all_files : bool) (v : visit) : list event :=
  match v with
  | VDir rel => [EvScandir (folder_path ++ rel)]
  | VFile rel rd =>
      if qualifies folder_path exclude_files all_files rel then
        EvOpenRead (folder_path ++ rel) ::
        match rd with
        | ReadOk _ => []
        | ReadErr e => [EvWarning (folder_path ++ rel) e]
        end
      else []
  end.

(** The record a visit adds to [output_parts], if any. *)
Definition parts_of (folder_path : path) (exclude_files : gset path)
    (all_files : bool) (v : visit) : list string :=
  match v with
  | VDir _ => []
  | VFile rel rd =>
      if qualifies folder_path exclude_files all_files rel
      then [record_of folder_path (rel, rd)] else []
  end.

(** The visits beneath the subdirectories [ds] of the directory [rel]. *)
Definition visits_below (exclude_dirs : gset string) (rel : path)
    (ds : list (string * tree)) : list visit :=
  ds ≫= λ d, if decide (d.1 ∈ exclude_dirs) then []
            else visits exclude_dirs (joinpath rel d.1) d.2.

(** The descent of [walk] into the subdirectories [ds] of [root]. *)
Fixpoint descend (folder_path : path) (exclude_files : gset path)
    (exclude_dirs : gset string) (all_files : bool) (root : path)
    (ds : list (string * tree)) (st : state) : option state :=
  match ds with
  | [] => Some st
  | (d, sub) :: ds' =>
      if decide (d ∈ exclude_dirs)
      then descend folder_path exclude_files exclude_dirs all_files root ds' st
      else
        st' ← walk folder_path exclude_files exclude_dirs all_files
                 (joinpath root d) sub st;
        descend folder_path exclude_files exclude_dirs all_files root ds' st'
  end.

(** The directories above a file: every component of its relative path but
    the last. *)
Definition parents (rel : path) : path := removelast rel.

(** The header line of a record, with its line feed. *)
Definition header (folder_path rel : path) : string :=
  "[" +:+ name folder_path +:+ "/" +:+ path_str rel +:+ "]" +:+ nl.

(** The state of a call after the visits [vs]. *)
Definition after (folder_path : path) (exclude_files : gset path)
    (all_files : bool) (st : state) (vs : list visit) : state :=
  State (output_parts st ++ (vs ≫= parts_of folder_path exclude_files all_files))
        (journal st ++ (vs ≫= events_of folder_path exclude_files all_files)).

(** What reading gives for the files of the tree at the relative path
    [rel]: the files named by the last component, in the directory the
    components before it lead to. *)
Fixpoint files_at (rel : path) (t : tree) : list read_result :=
  match rel with
  | [] => []
  | c :: rel' =>
      match rel' with
      | [] => omap (λ f, if decide (f.1 = c) then Some f.2 else None) (files_of t)
      | _ => dirs_of t ≫= λ d, if decide (d.1 = c) then files_at rel' d.2 else []
      end
  end.

(** The number of files of a tree, at all levels. *)
Fixpoint count_files (t : tree) : nat :=
  match t with
  | Tree dirs files =>
      length files +
      (fix below (ds : list (string * tree)) : nat :=
         match ds with
         | [] => 0
         | (_, sub) :: ds' => count_files sub + below ds'
         end) dirs
  end.

(** The path an operation is about. *)
Definition event_path (ev : event) : path :=
  match ev with
  | EvScandir p | EvOpenRead p | EvWarning p _ | EvOpenWrite p _ => p
  end.

(** The tree without the subdirectories named in [exclude_dirs], at every
    level. *)
Fixpoint prune (exclude_dirs : gset string) (t : tree) : tree :=
  match t with
  | Tree dirs files =>
      Tree ((fix keep (ds : list (string * tree)) : list (string * tree) :=
               match ds with
               | [] => []
               | (d, sub) :: ds' =>
                   if decide (d ∈ exclude_dirs) then keep ds'
                   else (d, prune exclude_dirs sub) :: keep ds'
               end) dirs) files
  end.

(** The names of all directories of a tree. *)
Fixpoint dir_names (t : tree) : list string :=
  match t with
  | Tree dirs _ =>
      (fix names (ds : list (string * tree)) : list string :=
         match ds with
         | [] => []
         | (d, sub) :: ds' => d :: dir_names sub ++ names ds'
         end) dirs
  end.

(** Which operations change the filesystem, and what they do to it.  The
    filesystem is any type with a way to look at the tree under a folder
    and a way to write a text file. *)
Definition mutating (ev : event) : bool :=
  match ev with
  | EvOpenWrite _ _ => true
  | _ => false
  end.

Section filesystem.
Context {FS : Type}.
Variable tree_at : FS → path → option tree.
Variable write_text : path → string → FS → FS.

Definition effect (ev : event) (w : FS) : FS :=
  match ev with
  | EvOpenWrite p text => write_text p text w
  | _ => w
  end.

Definition replay (tr : list event) (w : FS) : FS :=
  foldl (λ w ev, effect ev w) w tr.

(** A call of [collect_files] in the filesystem [w]: the text it returns
    and the filesystem it leaves. *)
Definition invoke (folder_path : path) (exclude_files : gset path)
    (exclude_dirs : gset string) (all_files : bool) (w : FS)
  : option (string * FS) :=
  t ← tree_at w folder_path;
  '(text, tr) ← collect_files folder_path exclude_files exclude_dirs all_files t;
  Some (text, replay tr w).
End filesystem.

(** ** The filter of the specification *)

(** The specification describes the filter with an allow-list and a
    deny-list of extensions.  The definitions of this module follow its
    words (section 4.1, step 3), to be compared with [qualifies]. *)
Module Spec.

Definition lower_ascii (c : ascii) : ascii :=
  let n := nat_of_ascii c in
  if (65 <=? n)%nat && (n <=? 90)%nat then ascii_of_nat (n + 32) else c.

Fixpoint lower (s : string) : string :=
  match s with
  | EmptyString => EmptyString
  | String c s' => String (lower_ascii c) (lower s')
  end.

(** The substring from the last dot to the end of the name. *)
Fixpoint last_suffix (s : string) : option string :=
  match s with
  | EmptyString => None
  | String c s' =>
      match last_suffix s' with
      | Some e => Some e
      | None => if Ascii.eqb c "."%char then Some s else None
      end
  end.

(** Step 3a: the extension, lower-cased; empty when the name has no
    dot. *)
Definition extension (file : string) : string :=
  lower (default EmptyString (last_suffix file)).

(** Case-insensitive membership of an extension in a set. *)
Definition member (ext : string) (exts : gset string) : bool :=
  bool_decide (lower ext ∈ (set_map lower exts : gset string)).

(** Steps 3b to 3d for the file [file] whose full path is [full]. *)
Definition qualifies (allFiles : bool) (includeExtensions excludeExtensions : gset string)
    (fileExclusions : gset path) (full : path) (file : string) : bool :=
  (allFiles || member (extension file) includeExtensions) &&
  negb (member (extension file) excludeExtensions) &&
  bool_decide (full ∉ fileExclusions).

(** Modelled from the spec: the constant [DEFAULT_EXTENSIONS] that the
    tests pass as [include_extensions]; the module [collect_code] does
    not define it.  Scenario A gives the default allow-list. *)
Definition DEFAULT_EXTENSIONS : gset string :=
  {[ ".py"; ".java"; ".c"; ".cpp"; ".h"; ".hpp" ]}.

End Spec.

(** ** Sample trees *)

Definition proj : path := ["home"; "dev"; "proj"].

(** Scenario A of the specification. *)
Definition scenario_tree : tree :=
  Tree [] [("a.py", ReadOk "x"); ("b.java", ReadOk "y"); ("c.txt", ReadOk "z")].

(** The two files of [test_case_insensitive_extensions]. *)
Definition upper_tree : tree :=
  Tree [] [("Test.PY", ReadOk "uppercase py"); ("Test.JAVA", ReadOk "uppercase java")].

Definition lower_tree : tree :=
  Tree [] [("test.py", ReadOk "uppercase py"); ("test.java", ReadOk "uppercase java")].

(** A project with a build directory, a file that cannot be read, and a
    regular file that carries the name of an excluded directory. *)
Definition sample_tree : tree :=
  Tree [("build", Tree [("deep", Tree [] [("gen.py", ReadOk "g")])]
                       [("out.o", ReadErr "binary")]);
        ("pkg", Tree [] [("m.py", ReadErr "denied"); ("n.py", ReadOk "n")])]
       [("a.py", ReadOk "x"); ("venv", ReadOk "v"); ("build.py", ReadOk "b")].

(** A tree in which every file lies beneath an excluded directory. *)
Definition hollow_tree : tree :=
  Tree [("venv", Tree [] [("site.py", ReadOk "s")]); ("docs", Tree [] [])] [].

(** ** Reading a journal *)

(** The files a journal opens for reading, in order. *)
Definition opened (tr : list event) : list path :=
  omap (λ ev, match ev with EvOpenRead p => Some p | _ => None end) tr.

(** The directories a journal turns to, in order. *)
Definition listed (tr : list event) : list path :=
  omap (λ ev, match ev with EvScandir p => Some p | _ => None end) tr.

(** The warnings of a journal, in order: the file and the error. *)
Definition warned (tr : list event) : list (path * string) :=
  omap (λ ev, match ev with EvWarning p e => Some (p, e) | _ => None end) tr.

(** The failed read of a file with a record, as the warning names it. *)
Definition failure (folder_path : path) (x : path * read_result)
  : option (path * string) :=
  match x.2 with
  | ReadErr e => Some (folder_path ++ x.1, e)
  | ReadOk _ => None
  end.

(** ** Parts of a tree *)

(** The files of the folder itself that pass the two tests. *)
Definition kept_files (folder_path : path) (exclude_files : gset path)
    (all_files : bool) (files : list (string * read_result))
  : list (path * read_result) :=
  omap (λ f, if qualifies folder_path exclude_files all_files [f.1]
             then Some ([f.1], f.2) else None) files.

(** A file of the subdirectory [d], seen from the directory above. *)
Definition under (d : string) (x : path * read_result) : path * read_result :=
  (d :: x.1, x.2).

(** A visit, seen from [pre] components higher up. *)
Definition shift (pre : path) (v : visit) : visit :=
  match v with
  | VDir r => VDir (pre ++ r)
  | VFile r rd => VFile (pre ++ r) rd
  end.

(** The names of the files of a directory are distinct, and so are the
    names of its subdirectories, at every level. *)
Fixpoint distinct_names (t : tree) : bool :=
  match t with
  | Tree dirs files =>
      bool_decide (NoDup files.*1) && bool_decide (NoDup dirs.*1) &&
      (fix all (ds : list (string * tree)) : bool :=
         match ds with
         | [] => true
         | (_, sub) :: ds' => distinct_names sub && all ds'
         end) dirs
  end.

(** ** Parts of a run of [main] *)

(** The file [main] writes. *)
Definition output_file (cwd : path) : path := joinpath cwd "collected_code.txt".

(** The text of one folder in a run of [main], when it is a directory. *)
Definition folder_text (is_dir : path → option tree) (current_script : path)
    (exclude_dirs : gset string) (all_files : bool) (folder_path : path)
  : option string :=
  t ← is_dir folder_path;
  Some (String.concat EmptyString
          (record_of folder_path <$>
           emitted folder_path {[ current_script ]} exclude_dirs all_files t)).

(** The operations of one folder in a run of [main]. *)
Definition folder_journal (is_dir : path → option tree) (current_script : path)
    (exclude_dirs : gset string) (all_files : bool) (folder_path : path)
  : list event :=
  match is_dir folder_path with
  | Some t =>
      visits exclude_dirs [] t ≫= events_of folder_path {[ current_script ]} all_files
  | None => []
  end.

(** ** More sample trees *)

(** The only directory of a small filesystem is [proj]. *)
Definition sample_fs (p : path) : option tree :=
  if decide (p = proj) then Some sample_tree else None.

(** A folder in which an earlier run has left its output. *)
Definition rerun_tree : tree :=
  Tree [] [("a.py", ReadOk "x"); ("collected_code.txt", ReadOk "old text")].

Definition rerun_fs (p : path) : option tree :=
  if decide (p = proj) then Some rerun_tree else None.

(** ** Calls with keyword arguments *)





(** ** Links *)

(** The script, which [main] puts into [exclude_files]. *)
Definition script_path : path := ["opt"; "collect_code.py"].

(** A folder whose only file, [link.py], is a symbolic link to the script:
    [os.walk] names the link among [files], and [open] reads through it. *)
Definition link_tree : tree :=
  Tree [] [("link.py", ReadOk "import os")].

(** [Path.resolve()] in that filesystem: the link leads to the script,
    every other path to itself. *)
Definition link_resolve (p : path) : path :=
  if decide (p = proj ++ ["link.py"]) then script_path else p.

(** ** Operations and messages *)

(** The operations of a journal on the filesystem: everything but the
    messages that are logged. *)
Definition operations (tr : list event) : list event :=
  List.filter (λ ev, match ev with EvWarning _ _ => false | _ => true end) tr.

(** * Properties *)

(** ** Induction on trees *)

Lemma tree_ind' (P : tree → Prop) :
  (∀ dirs files, Forall (λ d, P d.2) dirs → P (Tree dirs files)) →
  ∀ t, P t.
Proof.
  intros step. fix IH 1. intros [dirs files]. apply step.
  induction dirs as [|[d sub] ds IHds]; constructor; [apply IH | exact IHds].
Qed.

(** ** Unfolding the nested recursions *)

Lemma walk_unfold fp ef ed af root dirs files st :
  walk fp ef ed af root (Tree dirs files) st =
  visit_files fp ef af root files (log (EvScandir root) st)
    ≫= descend fp ef ed af root dirs.
Proof.
  simpl. destruct (visit_files _ _ _ _ _ _) as [st1|]; [|reflexivity]. simpl.
  revert st1. induction dirs as [|[d sub] ds IH]; intros st1; [reflexivity|].
  simpl. destruct (decide (d ∈ ed)); [apply IH|].
  destruct (walk _ _ _ _ _ sub st1); [apply IH | reflexivity].
Qed.

Lemma visits_unfold ed rel dirs files :
  visits ed rel (Tree dirs files) =
  VDir rel :: ((λ f, VFile (joinpath rel f.1) f.2) <$> files) ++
  visits_below ed rel dirs.
Proof.
  simpl. do 2 f_equal.
  induction dirs as [|[d sub] ds IH]; [reflexivity|].
  unfold visits_below in *. rewrite bind_cons. simpl.
  destruct (decide (d ∈ ed)); simpl; by rewrite IH.
Qed.

Lemma prune_unfold ed dirs files :
  prune ed (Tree dirs files) =
  Tree (dirs ≫= λ d, if decide (d.1 ∈ ed) then [] else [(d.1, prune ed d.2)])
       files.
Proof.
  simpl. f_equal.
  induction dirs as [|[d sub] ds IH]; [reflexivity|].
  rewrite bind_cons. simpl. destruct (decide (d ∈ ed)); simpl; by rewrite IH.
Qed.

Lemma dir_names_unfold dirs files :
  dir_names (Tree dirs files) = dirs ≫= λ d, d.1 :: dir_names d.2.
Proof.
  simpl. induction dirs as [|[d sub] ds IH]; [reflexivity|].
  rewrite bind_cons. simpl. by rewrite IH.
Qed.

(** ** Paths *)

Lemma relative_to_app (base rel : path) : relative_to (base ++ rel) base = Some rel.
Proof.
  induction base as [|b base IH]; [reflexivity|].
  simpl. by rewrite decide_True.
Qed.

Lemma name_joinpath (rel : path) (f : string) : name (joinpath rel f) = f.
Proof. unfold name, joinpath. by rewrite last_snoc. Qed.

Lemma parents_joinpath (rel : path) (f : string) : parents (joinpath rel f) = rel.
Proof. unfold parents, joinpath. apply removelast_last. Qed.

(** ** The walk does what [visits] describes *)

Section walk_facts.
Variable fp : path.
Variable ef : gset path.
Variable ed : gset string.
Variable af : bool.

Lemma after_nil st : after fp ef af st [] = st.
Proof. destruct st. unfold after. simpl. by rewrite !app_nil_r. Qed.

Lemma after_app st vs ws :
  after fp ef af (after fp ef af st vs) ws = after fp ef af st (vs ++ ws).
Proof. unfold after. simpl. by rewrite !bind_app, !app_assoc. Qed.

Lemma qualifies_joinpath rel f :
  qualifies fp ef af (joinpath rel f) =
  negb (negb af && negb (endswith f ".py")) &&
  bool_decide (joinpath (fp ++ rel) f ∉ ef).
Proof.
  unfold qualifies. rewrite name_joinpath. unfold joinpath.
  rewrite app_assoc. by destruct af, (endswith f ".py").
Qed.

Lemma visit_file_after rel f rd st :
  visit_file fp ef af (fp ++ rel) f rd st =
  Some (after fp ef af st [VFile (joinpath rel f) rd]).
Proof.
  unfold visit_file, after. rewrite !bind_singleton. simpl.
  rewrite qualifies_joinpath.
  destruct (negb af && negb (endswith f ".py")); simpl.
  { by rewrite !app_nil_r; destruct st. }
  destruct (decide (joinpath (fp ++ rel) f ∈ ef)) as [Hin|Hout].
  { rewrite bool_decide_false by (intros H; by apply H).
    simpl. by rewrite !app_nil_r; destruct st. }
  rewrite bool_decide_true by done.
  replace (joinpath (fp ++ rel) f) with (fp ++ joinpath rel f)
    by (unfold joinpath; by rewrite app_assoc).
  rewrite relative_to_app. simpl.
  destruct rd; simpl; unfold append_part, log; simpl;
    by rewrite ?app_nil_r, <- ?app_assoc.
Qed.

Lemma visit_files_after rel files st :
  visit_files fp ef af (fp ++ rel) files st =
  Some (after fp ef af st ((λ f, VFile (joinpath rel f.1) f.2) <$> files)).
Proof.
  revert st. induction files as [|[f rd] files IH]; intros st; simpl.
  { by rewrite after_nil. }
  rewrite visit_file_after. simpl. rewrite IH. by rewrite after_app.
Qed.

Lemma descend_after rel ds :
  Forall (λ d, ∀ rel st, walk fp ef ed af (fp ++ rel) d.2 st =
                         Some (after fp ef af st (visits ed rel d.2))) ds →
  ∀ st, descend fp ef ed af (fp ++ rel) ds st =
        Some (after fp ef af st (visits_below ed rel ds)).
Proof.
  induction 1 as [|[d sub] ds Hd _ IHds]; intros st.
  { simpl. by rewrite after_nil. }
  unfold visits_below. rewrite bind_cons. simpl.
  destruct (decide (d ∈ ed)); simpl; [apply IHds|].
  replace (joinpath (fp ++ rel) d) with (fp ++ joinpath rel d)
    by (unfold joinpath; by rewrite app_assoc).
  simpl in Hd. rewrite Hd. simpl. rewrite IHds. by rewrite after_app.
Qed.

Lemma walk_after t : ∀ rel st,
  walk fp ef ed af (fp ++ rel) t st = Some (after fp ef af st (visits ed rel t)).
Proof.
  induction t as [dirs files IH] using tree_ind'. intros rel st.
  rewrite walk_unfold, visits_unfold, visit_files_after. simpl.
  rewrite (descend_after rel dirs IH).
  replace (log (EvScandir (fp ++ rel)) st) with (after fp ef af st [VDir rel])
    by (unfold after, log; simpl; by rewrite app_nil_r).
  by rewrite !after_app.
Qed.

Lemma parts_of_emitted t :
  visits ed [] t ≫= parts_of fp ef af = record_of fp <$> emitted fp ef ed af t.
Proof.
  unfold emitted. induction (visits ed [] t) as [|v vs IH]; [reflexivity|].
  rewrite bind_cons, IH. destruct v as [rel|rel rd]; simpl; [reflexivity|].
  by destruct (qualifies fp ef af rel).
Qed.

Lemma collect_parts_eq t :
  collect_parts fp ef ed af t =
  Some (record_of fp <$> emitted fp ef ed af t,
        visits ed [] t ≫= events_of fp ef af).
Proof.
  unfold collect_parts.
  pose proof (walk_after t [] (State [] [])) as H.
  rewrite app_nil_r in H. rewrite H. simpl. by rewrite parts_of_emitted.
Qed.

Lemma collect_files_eq t :
  collect_files fp ef ed af t =
  Some (String.concat EmptyString (record_of fp <$> emitted fp ef ed af t),
        visits ed [] t ≫= events_of fp ef af).
Proof. unfold collect_files. by rewrite collect_parts_eq. Qed.
End walk_facts.

(** ** What the walk reaches *)

Lemma files_at_single c t :
  files_at [c] t =
  omap (λ f, if decide (f.1 = c) then Some f.2 else None) (files_of t).
Proof. reflexivity. Qed.

Lemma files_at_cons c c' rel t :
  files_at (c :: c' :: rel) t =
  dirs_of t ≫= λ d, if decide (d.1 = c) then files_at (c' :: rel) d.2 else [].
Proof. reflexivity. Qed.

Lemma parents_cons c c' rel : parents (c :: c' :: rel) = c :: parents (c' :: rel).
Proof. reflexivity. Qed.

Lemma Forall_parents (P : string → Prop) rel : Forall P rel → Forall P (parents rel).
Proof.
  induction 1 as [|c rel Hc Hrel IH]; [constructor|].
  destruct rel as [|c' rel]; [constructor|].
  rewrite parents_cons. by constructor.
Qed.

Lemma elem_of_parents d rel : d ∈ parents rel → d ∈ rel.
Proof.
  induction rel as [|c [|c' rel] IH]; [done|by intros ?%elem_of_nil|].
  rewrite parents_cons, !elem_of_cons. intros [->|H]; [by left|right].
  by apply elem_of_cons, IH.
Qed.

Lemma elem_of_visits_file ed t : ∀ rel r rd,
  VFile r rd ∈ visits ed rel t ↔
  ∃ r', r = rel ++ r' ∧ rd ∈ files_at r' t ∧ Forall (λ d, d ∉ ed) (parents r').
Proof.
  induction t as [dirs files IH] using tree_ind'. intros rel r rd.
  rewrite Forall_forall in IH.
  rewrite visits_unfold, elem_of_cons, elem_of_app, list_elem_of_fmap.
  unfold visits_below. rewrite list_elem_of_bind. split.
  - intros [?|[[[f rd'] [Heq Hin]]|[[d sub] [Hv Hd]]]]; [done| |].
    + simpl in Heq. injection Heq as -> ->. exists [f].
      split; [done|]. split; [|constructor].
      rewrite files_at_single. apply list_elem_of_omap. exists (f, rd').
      split; [done|]. simpl. by rewrite decide_True.
    + simpl in Hv. destruct (decide (d ∈ ed)); [by apply elem_of_nil in Hv|].
      apply (IH (d, sub) Hd) in Hv as (r' & -> & Hf & Hp). exists (d :: r').
      split; [unfold joinpath; by rewrite <- app_assoc|].
      destruct r' as [|c r']; [by apply elem_of_nil in Hf|].
      rewrite files_at_cons, parents_cons. split; [|by constructor].
      apply list_elem_of_bind. exists (d, sub). simpl. by rewrite decide_True.
  - intros (r' & -> & Hf & Hp). destruct r' as [|c [|c' r']].
    + by apply elem_of_nil in Hf.
    + right; left. rewrite files_at_single in Hf.
      apply list_elem_of_omap in Hf as [[f rd'] [Hin Heq]]. simpl in Heq.
      destruct (decide (f = c)) as [->|]; [|done]. injection Heq as ->.
      by exists (c, rd).
    + right; right. rewrite files_at_cons in Hf.
      apply list_elem_of_bind in Hf as [[d sub] [Hf Hd]]. simpl in Hf.
      destruct (decide (d = c)) as [->|]; [|by apply elem_of_nil in Hf].
      rewrite parents_cons in Hp. apply Forall_cons in Hp as [Hc Hp].
      exists (c, sub). split; [|done]. simpl. rewrite decide_False by done.
      apply (IH (c, sub) Hd). exists (c' :: r').
      split; [unfold joinpath; by rewrite <- app_assoc|done].
Qed.

Lemma elem_of_visits_dir ed t : ∀ rel r,
  VDir r ∈ visits ed rel t → ∃ r', r = rel ++ r' ∧ Forall (λ d, d ∉ ed) r'.
Proof.
  induction t as [dirs files IH] using tree_ind'. intros rel r.
  rewrite Forall_forall in IH.
  rewrite visits_unfold, elem_of_cons, elem_of_app, list_elem_of_fmap.
  unfold visits_below. rewrite list_elem_of_bind.
  intros [Heq|[[[f rd'] [Heq Hin]]|[[d sub] [Hv Hd]]]]; [|done|].
  - injection Heq as ->. exists []. by rewrite app_nil_r.
  - simpl in Hv. destruct (decide (d ∈ ed)); [by apply elem_of_nil in Hv|].
    apply (IH (d, sub) Hd) in Hv as (r' & -> & Hp). exists (d :: r').
    split; [unfold joinpath; by rewrite <- app_assoc|by constructor].
Qed.

(** A file gets a record exactly when the walk reaches it and it passes
    the two tests. *)
Lemma elem_of_emitted fp ef ed af t rel rd :
  (rel, rd) ∈ emitted fp ef ed af t ↔
  rd ∈ files_at rel t ∧ Forall (λ d, d ∉ ed) (parents rel) ∧
  qualifies fp ef af rel = true.
Proof.
  unfold emitted. rewrite list_elem_of_omap. split.
  - intros [[r|r rd'] [Hv Hq]]; [done|].
    destruct (qualifies fp ef af r) eqn:Hr; [|done]. injection Hq as -> ->.
    apply elem_of_visits_file in Hv as (r' & Heq & Hf & Hp).
    simpl in Heq. by subst.
  - intros (Hf & Hp & Hq). exists (VFile rel rd). rewrite Hq. split; [|done].
    apply elem_of_visits_file. by exists rel.
Qed.

(** Where the operations of a call come from. *)
Lemma journal_origin fp ef ed af t ev :
  ev ∈ visits ed [] t ≫= events_of fp ef af →
  (∃ rel, ev = EvScandir (fp ++ rel) ∧ Forall (λ d, d ∉ ed) rel) ∨
  (∃ rel rd, (rel, rd) ∈ emitted fp ef ed af t ∧
     (ev = EvOpenRead (fp ++ rel) ∨
      ∃ e, rd = ReadErr e ∧ ev = EvWarning (fp ++ rel) e)).
Proof.
  rewrite list_elem_of_bind. intros [[r|r rd] [Hev Hv]]; simpl in Hev.
  - left. apply list_elem_of_singleton in Hev as ->.
    apply elem_of_visits_dir in Hv as (r' & -> & Hp). by exists r'.
  - right. destruct (qualifies fp ef af r) eqn:Hq; [|by apply elem_of_nil in Hev].
    apply elem_of_visits_file in Hv as (r' & Heq & Hf & Hp). simpl in Heq. subst r'.
    exists r, rd. split; [by apply elem_of_emitted|].
    apply elem_of_cons in Hev as [->|Hev]; [by left|right].
    destruct rd as [c|e]; [by apply elem_of_nil in Hev|].
    apply list_elem_of_singleton in Hev as ->. by exists e.
Qed.

(** Every file with a record was opened. *)
Lemma emitted_opened fp ef ed af t rel rd :
  (rel, rd) ∈ emitted fp ef ed af t →
  EvOpenRead (fp ++ rel) ∈ visits ed [] t ≫= events_of fp ef af.
Proof.
  intros (Hf & Hp & Hq)%elem_of_emitted. apply list_elem_of_bind.
  exists (VFile rel rd). split; [simpl; rewrite Hq; by left|].
  apply elem_of_visits_file. by exists rel.
Qed.

(** ** Pruning *)

Lemma visits_prune ed t : ∀ rel, visits ed rel (prune ed t) = visits ed rel t.
Proof.
  induction t as [dirs files IH] using tree_ind'. intros rel.
  rewrite prune_unfold, !visits_unfold. do 2 f_equal. unfold visits_below.
  induction IH as [|[d sub] ds Hd _ IHds]; [reflexivity|].
  rewrite !bind_cons, bind_app. simpl.
  destruct (decide (d ∈ ed)) as [Hin|Hout]; simpl; [apply IHds|].
  rewrite decide_False by done. simpl. rewrite app_nil_r, IHds. f_equal. apply Hd.
Qed.

Lemma visits_exclude_fresh n ed t :
  n ∉ dir_names t → ∀ rel, visits ({[n]} ∪ ed) rel t = visits ed rel t.
Proof.
  induction t as [dirs files IH] using tree_ind'. intros Hn rel.
  rewrite dir_names_unfold in Hn. rewrite !visits_unfold. do 2 f_equal.
  unfold visits_below.
  induction IH as [|[d sub] ds Hd _ IHds]; [reflexivity|].
  rewrite bind_cons in Hn. simpl in Hn.
  rewrite not_elem_of_cons, not_elem_of_app in Hn. destruct Hn as (Hne & Hsub & Hds).
  rewrite !bind_cons. simpl. rewrite (IHds Hds), (Hd Hsub).
  destruct (decide (d ∈ ed)) as [Hin|Hout],
    (decide (d ∈ ({[n]} ∪ ed : gset string))) as [Hin'|Hout']; try done.
  - exfalso. apply Hout', elem_of_union. by right.
  - exfalso. apply elem_of_union in Hin' as [Heq%elem_of_singleton|?]; [|done].
    by apply Hne.
Qed.

Lemma count_files_unfold dirs files :
  count_files (Tree dirs files) =
  length files + sum_list ((λ d, count_files d.2) <$> dirs).
Proof.
  simpl. f_equal. induction dirs as [|[d sub] ds IH]; [reflexivity|].
  simpl. by rewrite IH.
Qed.

Lemma visits_no_files ed t :
  count_files (prune ed t) = 0 →
  ∀ rel v, v ∈ visits ed rel t → ∃ r, v = VDir r.
Proof.
  induction t as [dirs files IH] using tree_ind'. intros Hc rel v.
  rewrite prune_unfold, count_files_unfold in Hc.
  apply Nat.eq_add_0 in Hc as [Hfiles Hdirs].
  apply length_zero_iff_nil in Hfiles as ->.
  rewrite visits_unfold. simpl. rewrite elem_of_cons.
  intros [->|Hv]; [by eexists|]. revert Hv. unfold visits_below.
  induction IH as [|[d sub] ds Hd _ IHds]; [by intros ?%elem_of_nil|].
  rewrite bind_cons in Hdirs. rewrite bind_cons, elem_of_app. simpl in *.
  destruct (decide (d ∈ ed)) as [Hin|Hout]; simpl in Hdirs.
  - intros [?%elem_of_nil|Hv]; [done|]. by apply IHds.
  - apply Nat.eq_add_0 in Hdirs as [Hsub Hds].
    intros [Hv|Hv]; [by apply (Hd Hsub (joinpath rel d))|by apply IHds].
Qed.

(** ** Strings and records *)

Lemma append_nil_r (s : string) : s +:+ EmptyString = s.
Proof.
  induction s as [|c s IH]; [done|].
  change (String c (s +:+ EmptyString) = String c s). by rewrite IH.
Qed.

Lemma append_assoc (s1 s2 s3 : string) : (s1 +:+ s2) +:+ s3 = s1 +:+ s2 +:+ s3.
Proof.
  induction s1 as [|c s1 IH]; [done|].
  change (String c ((s1 +:+ s2) +:+ s3) = String c (s1 +:+ s2 +:+ s3)).
  by rewrite IH.
Qed.

Lemma join_cons (s : string) (l : list string) :
  String.concat EmptyString (s :: l) = s +:+ String.concat EmptyString l.
Proof. destruct l; [symmetry; apply append_nil_r | reflexivity]. Qed.

Lemma join_app (l1 l2 : list string) :
  String.concat EmptyString (l1 ++ l2) =
  String.concat EmptyString l1 +:+ String.concat EmptyString l2.
Proof.
  induction l1 as [|s l1 IH]; [done|].
  rewrite <- app_comm_cons, !join_cons, IH. by rewrite append_assoc.
Qed.

Lemma format_part_header fp rel content :
  format_part fp rel content = header fp rel +:+ content +:+ nl +:+ nl.
Proof. unfold format_part, header. by rewrite !append_assoc. Qed.

Lemma contains_placeholder e : contains "Error" (placeholder e) = true.
Proof. reflexivity. Qed.

(** ** The caller *)

Lemma collect_folders_eq is_dir cs ed af folders :
  ∃ tr, collect_folders is_dir cs ed af folders =
    Some (omap (λ fp, t ← is_dir fp;
                      Some (String.concat EmptyString
                              (record_of fp <$> emitted fp {[cs]} ed af t)))
               folders, tr).
Proof.
  induction folders as [|fp folders [tr IH]]; [by eexists|].
  simpl. destruct (is_dir fp) as [t|]; simpl; [|by eexists].
  rewrite collect_files_eq, IH. simpl. by eexists.
Qed.

(** ** Runs *)

(** Scenario C of the specification: nothing beneath [build] is reached. *)
Example run_scenario_C :
  collect_files proj ∅ {[ "build" ]} true
    (Tree [("build", Tree [] [("out.o", ReadOk "binary")])] []) =
  Some (EmptyString, [EvScandir proj]).
Proof. by vm_compute. Qed.

(** Scenario D: [a.py] is excluded by its path. *)
Example run_scenario_D :
  collect_files proj {[ proj ++ ["a.py"] ]} ∅ false scenario_tree =
  Some (EmptyString, [EvScandir proj]).
Proof. by vm_compute. Qed.

(** A file that cannot be read, among files that can. *)
Example run_unreadable :
  collect_files proj ∅ {[ "build" ]} false sample_tree =
  Some ("[proj/a.py]" +:+ nl +:+ "x" +:+ nl +:+ nl +:+
        "[proj/build.py]" +:+ nl +:+ "b" +:+ nl +:+ nl +:+
        "[proj/pkg/m.py]" +:+ nl +:+ "<<Error reading file: denied>>" +:+ nl +:+ nl +:+
        "[proj/pkg/n.py]" +:+ nl +:+ "n" +:+ nl +:+ nl,
        [EvScandir proj; EvOpenRead (proj ++ ["a.py"]);
         EvOpenRead (proj ++ ["build.py"]); EvScandir (proj ++ ["pkg"]);
         EvOpenRead (proj ++ ["pkg"; "m.py"]);
         EvWarning (proj ++ ["pkg"; "m.py"]) "denied";
         EvOpenRead (proj ++ ["pkg"; "n.py"])]).
Proof. by vm_compute. Qed.

(** [exclude_dirs] is applied to the subdirectories the walk finds, not
    to the folder the walk starts from. *)
Example run_folder_named_venv :
  collect_files ["srv"; "venv"] ∅ DEFAULT_EXCLUDE_DIRS false scenario_tree =
  Some ("[venv/a.py]" +:+ nl +:+ "x" +:+ nl +:+ nl,
        [EvScandir ["srv"; "venv"]; EvOpenRead ["srv"; "venv"; "a.py"]]).
Proof. by vm_compute. Qed.

(** [main] on a folder given twice and a path that is no directory. *)
Example run_main :
  main (λ p, if decide (p = proj) then Some scenario_tree else None) (λ _, true)
       ["opt"; "collect_code.py"] ["tmp"] [proj; ["nowhere"]; proj] [] false =
  Some [EvScandir proj; EvOpenRead (proj ++ ["a.py"]);
        EvScandir proj; EvOpenRead (proj ++ ["a.py"]);
        EvOpenWrite ["tmp"; "collected_code.txt"]
          ("[proj/a.py]" +:+ nl +:+ "x" +:+ nl +:+ nl +:+
           "[proj/a.py]" +:+ nl +:+ "x" +:+ nl +:+ nl)].
Proof. by vm_compute. Qed.

(** * The claims *)

(** C4.  A file that lies beneath a directory whose name is in
    [exclude_dirs] gets no record, and no operation of the call touches it:
    it is not opened, no warning is logged for it, and the directory it
    lies in is never listed.  The call does not even depend on what is
    beneath the excluded directories: two trees that agree once these are
    cut off give the same text and the same journal. *)
Theorem pruned_directories_are_never_entered fp ef ed af t rel d :
  d ∈ parents rel → d ∈ ed →
  ∃ out tr,
    collect_files fp ef ed af t = Some (out, tr) ∧
    out = String.concat EmptyString (record_of fp <$> emitted fp ef ed af t) ∧
    (∀ rd, (rel, rd) ∉ emitted fp ef ed af t) ∧
    (∀ ev, ev ∈ tr → event_path ev ≠ fp ++ rel) ∧
    (EvScandir (fp ++ parents rel) ∉ tr) ∧
    (∀ t', prune ed t' = prune ed t →
           collect_files fp ef ed af t' = Some (out, tr)).
Proof.
  intros Hd Hed. rewrite collect_files_eq. eexists _, _.
  split; [reflexivity|]. split; [reflexivity|].
  assert (Hno : ¬ Forall (λ d, d ∉ ed) (parents rel)).
  { rewrite Forall_forall. intros H. by apply (H d). }
  repeat split.
  - intros rd (_ & Hp & _)%elem_of_emitted. by apply Hno.
  - intros ev Hev Hpath.
    apply journal_origin in Hev as [(r & -> & Hr)|(r & rd & Hin & Hev)].
    + simpl in Hpath. apply app_inv_head in Hpath as ->.
      by apply Hno, Forall_parents.
    + assert (r = rel) as ->.
      { destruct Hev as [->|(e & _ & ->)]; simpl in Hpath;
          by apply app_inv_head in Hpath. }
      apply elem_of_emitted in Hin as (_ & Hp & _). by apply Hno.
  - intros [(r & Heq & Hr)|(r & rd & _ & [Heq|(e & _ & Heq)])]%journal_origin;
      [|done|done].
    injection Heq as Heq. apply app_inv_head in Heq as <-. by apply Hno.
  - intros t' Ht'. rewrite collect_files_eq. unfold emitted.
    by rewrite <- (visits_prune ed t'), Ht', visits_prune.
Qed.

Lemma pruned_directories_are_never_entered_witness :
  ∃ out tr,
    collect_files proj ∅ {[ "build" ]} true sample_tree = Some (out, tr) ∧
    out = String.concat EmptyString
            (record_of proj <$> emitted proj ∅ {[ "build" ]} true sample_tree) ∧
    (∀ rd, (["build"; "deep"; "gen.py"], rd) ∉
           emitted proj ∅ {[ "build" ]} true sample_tree) ∧
    (∀ ev, ev ∈ tr → event_path ev ≠ proj ++ ["build"; "deep"; "gen.py"]) ∧
    (EvScandir (proj ++ parents ["build"; "deep"; "gen.py"]) ∉ tr) ∧
    (∀ t', prune {[ "build" ]} t' = prune {[ "build" ]} sample_tree →
           collect_files proj ∅ {[ "build" ]} true t' = Some (out, tr)).
Proof.
  apply (pruned_directories_are_never_entered proj ∅ {[ "build" ]} true
           sample_tree ["build"; "deep"; "gen.py"] "build").
  - vm_compute. by left.
  - by apply elem_of_singleton.
Defined.

(** C5.  The call returns whatever reading the files gives.  Every file
    the walk reaches and that passes the two tests has its record in the
    text, between the records of the files before and after it; the record
    is the header of the file followed by its content, and for a file that
    cannot be read the content is the placeholder, which carries the
    description of the error and contains the word Error. *)
Theorem read_failure_stays_inside fp ef ed af t :
  ∃ out tr,
    collect_files fp ef ed af t = Some (out, tr) ∧
    (∀ rel rd,
       rd ∈ files_at rel t → Forall (λ d, d ∉ ed) (parents rel) →
       qualifies fp ef af rel = true →
       ∃ before behind,
         emitted fp ef ed af t = before ++ (rel, rd) :: behind ∧
         out = String.concat EmptyString (record_of fp <$> before)
               +:+ (header fp rel +:+ content_of rd +:+ nl +:+ nl)
               +:+ String.concat EmptyString (record_of fp <$> behind)) ∧
    (∀ e, content_of (ReadErr e) = "<<Error reading file: " +:+ e +:+ ">>" ∧
          contains "Error" (content_of (ReadErr e)) = true).
Proof.
  rewrite collect_files_eq. eexists _, _. split; [reflexivity|]. split.
  - intros rel rd Hf Hp Hq.
    assert (Hin : (rel, rd) ∈ emitted fp ef ed af t) by by apply elem_of_emitted.
    apply list_elem_of_split in Hin as (before & behind & Heq).
    exists before, behind. split; [done|].
    rewrite Heq, fmap_app, fmap_cons, join_app, join_cons.
    unfold record_of at 2. simpl. by rewrite format_part_header.
  - intros e. split; [reflexivity | apply contains_placeholder].
Qed.

(** C6, as amended.  A file whose path as the walk builds it, the folder
    path of the call followed by the components below it, with no link
    resolved, is in [exclude_files] gets no record and is not opened,
    whatever its name and whatever [all_files] is. *)
Theorem excluded_file_is_never_emitted fp ef ed af t rel :
  fp ++ rel ∈ ef →
  ∃ out tr,
    collect_files fp ef ed af t = Some (out, tr) ∧
    out = String.concat EmptyString (record_of fp <$> emitted fp ef ed af t) ∧
    (∀ rd, (rel, rd) ∉ emitted fp ef ed af t) ∧
    (∀ ev, ev ∈ tr → ev ≠ EvOpenRead (fp ++ rel)).
Proof.
  intros Hex. rewrite collect_files_eq. eexists _, _.
  split; [reflexivity|]. split; [reflexivity|].
  assert (Hq : qualifies fp ef af rel = false).
  { unfold qualifies. rewrite bool_decide_false by (intros H; by apply H).
    apply andb_false_r. }
  split.
  - intros rd (_ & _ & H)%elem_of_emitted. congruence.
  - intros ev [(r & -> & _)|(r & rd & Hin & Hev)]%journal_origin Heq; [done|].
    assert (r = rel) as ->.
    { destruct Hev as [->|(e & _ & ->)]; [|done].
      injection Heq as Heq. by apply app_inv_head in Heq. }
    apply elem_of_emitted in Hin as (_ & _ & H). congruence.
Qed.

Lemma excluded_file_is_never_emitted_witness :
  ∃ out tr,
    collect_files proj {[ proj ++ ["a.py"] ]} ∅ false sample_tree = Some (out, tr) ∧
    out = String.concat EmptyString
            (record_of proj <$>
             emitted proj {[ proj ++ ["a.py"] ]} ∅ false sample_tree) ∧
    (∀ rd, (["a.py"], rd) ∉ emitted proj {[ proj ++ ["a.py"] ]} ∅ false sample_tree) ∧
    (∀ ev, ev ∈ tr → ev ≠ EvOpenRead (proj ++ ["a.py"])).
Proof.
  apply (excluded_file_is_never_emitted proj {[ proj ++ ["a.py"] ]} ∅ false
           sample_tree ["a.py"]).
  by apply elem_of_singleton.
Defined.

(** C6, as stated, fails: the membership test is not made on the resolved
    path.  A link to the script, whose resolved path is in
    [exclude_files], is opened and gets a record. *)
Lemma link_to_excluded_file_is_collected :
  link_resolve (proj ++ ["link.py"]) ∈ ({[ script_path ]} : gset path) ∧
  collect_files proj {[ script_path ]} ∅ false link_tree =
    Some ("[proj/link.py]" +:+ nl +:+ "import os" +:+ nl +:+ nl,
          [EvScandir proj; EvOpenRead (proj ++ ["link.py"])]).
Proof. split; [by vm_compute | by vm_compute]. Qed.

(** C7.  A call performs no operation that changes the filesystem, so the
    filesystem it leaves is the one it found, and a second call with the
    same arguments returns the same text, byte for byte, and leaves the
    filesystem as it is again. *)
Theorem collect_files_is_repeatable {FS : Type}
    (tree_at : FS → path → option tree) (write_text : path → string → FS → FS)
    fp ef ed af (w : FS) t :
  tree_at w fp = Some t →
  ∃ out tr,
    collect_files fp ef ed af t = Some (out, tr) ∧
    Forall (λ ev, mutating ev = false) tr ∧
    replay write_text tr w = w ∧
    invoke tree_at write_text fp ef ed af w = Some (out, w) ∧
    (∀ out' w', invoke tree_at write_text fp ef ed af w = Some (out', w') →
                invoke tree_at write_text fp ef ed af w' = Some (out', w')).
Proof.
  intros Ht. rewrite collect_files_eq. eexists _, _. split; [reflexivity|].
  assert (Hro : Forall (λ ev, mutating ev = false)
                  (visits ed [] t ≫= events_of fp ef af)).
  { apply Forall_forall. intros ev Hev.
    apply journal_origin in Hev as [(r & -> & _)|(r & rd & _ & [->|(e & _ & ->)])];
      reflexivity. }
  assert (Hre : replay write_text (visits ed [] t ≫= events_of fp ef af) w = w).
  { unfold replay. induction Hro as [|ev tr Hev _ IH]; [reflexivity|].
    simpl. by destruct ev. }
  assert (Hinv : invoke tree_at write_text fp ef ed af w =
                 Some (String.concat EmptyString
                         (record_of fp <$> emitted fp ef ed af t), w)).
  { unfold invoke. rewrite Ht. simpl. rewrite collect_files_eq. simpl.
    by rewrite Hre. }
  repeat split; [done..|].
  intros out' w' H. rewrite Hinv in H. injection H as <- <-. exact Hinv.
Qed.

(** A filesystem that is one tree under [proj], and in which writing a
    file anywhere leaves nothing of it. *)
Lemma collect_files_is_repeatable_witness :
  ∃ out tr,
    collect_files proj ∅ DEFAULT_EXCLUDE_DIRS false sample_tree = Some (out, tr) ∧
    Forall (λ ev, mutating ev = false) tr ∧
    replay (λ _ _ _, Tree [] []) tr sample_tree = sample_tree ∧
    invoke (λ w p, if decide (p = proj) then Some w else None)
           (λ _ _ _, Tree [] [])
           proj ∅ DEFAULT_EXCLUDE_DIRS false sample_tree = Some (out, sample_tree) ∧
    (∀ out' w',
       invoke (λ w p, if decide (p = proj) then Some w else None)
              (λ _ _ _, Tree [] [])
              proj ∅ DEFAULT_EXCLUDE_DIRS false sample_tree = Some (out', w') →
       invoke (λ w p, if decide (p = proj) then Some w else None)
              (λ _ _ _, Tree [] [])
              proj ∅ DEFAULT_EXCLUDE_DIRS false w' = Some (out', w')).
Proof.
  apply (collect_files_is_repeatable
           (λ w p, if decide (p = proj) then Some w else None)
           (λ _ _ _, Tree [] [])
           proj ∅ DEFAULT_EXCLUDE_DIRS false sample_tree sample_tree).
  reflexivity.
Defined.

(** C8.  The list [output_parts] of a call holds one string for each file
    that the walk reaches and that passes the two tests, in the order of
    the walk, and the text returned is their concatenation.  For a file
    that was read, the string is the header with the name of the folder of
    this call and the path of the file relative to this folder, a line
    feed, the content, and two line feeds.  A caller that collects several
    folders gets, for each, the text made with that folder as the root. *)
Theorem records_follow_the_walk fp ef ed af t :
  ∃ tr,
    collect_parts fp ef ed af t =
      Some (record_of fp <$> emitted fp ef ed af t, tr) ∧
    collect_files fp ef ed af t =
      Some (String.concat EmptyString (record_of fp <$> emitted fp ef ed af t), tr) ∧
    (∀ rel content,
       record_of fp (rel, ReadOk content) =
         "[" +:+ name fp +:+ "/" +:+ path_str rel +:+ "]" +:+ nl
             +:+ content +:+ nl +:+ nl ∧
       relative_to (fp ++ rel) fp = Some rel) ∧
    (∀ is_dir cs folders, ∃ tr',
       collect_folders is_dir cs ed af folders =
         Some (omap (λ fp', t' ← is_dir fp';
                            Some (String.concat EmptyString
                                    (record_of fp' <$> emitted fp' {[cs]} ed af t')))
                    folders, tr')).
Proof.
  eexists. rewrite collect_parts_eq, collect_files_eq.
  split; [reflexivity|]. split; [reflexivity|]. split.
  - intros rel content. split; [reflexivity | apply relative_to_app].
  - intros is_dir cs folders. apply collect_folders_eq.
Qed.

(** C9.  When the tree has no file once the excluded directories are cut
    off, the call returns the empty string. *)
Theorem no_files_no_text fp ef ed af t :
  count_files (prune ed t) = 0 →
  ∃ tr, collect_files fp ef ed af t = Some (EmptyString, tr).
Proof.
  intros Hc. rewrite collect_files_eq. eexists. do 2 f_equal.
  replace (emitted fp ef ed af t) with (@nil (path * read_result)); [done|].
  symmetry. apply elem_of_nil_inv. intros [rel rd] Hin. unfold emitted in Hin.
  apply list_elem_of_omap in Hin as (v & Hv & Hq).
  by apply (visits_no_files ed t Hc) in Hv as [r ->].
Qed.

Lemma no_files_no_text_witness :
  ∃ tr, collect_files proj ∅ DEFAULT_EXCLUDE_DIRS true hollow_tree =
        Some (EmptyString, tr).
Proof.
  apply (no_files_no_text proj ∅ DEFAULT_EXCLUDE_DIRS true hollow_tree).
  vm_compute. reflexivity.
Defined.

(** C10.  A file whose own name is in [exclude_dirs] is treated as any
    other file of a directory the walk reaches: it gets a record exactly
    when it passes the two tests, and it is then opened.  A name in
    [exclude_dirs] that no directory of the tree carries changes nothing. *)
Theorem exclude_dirs_spares_files fp ef ed af t rel rd :
  rd ∈ files_at rel t → name rel ∈ ed → Forall (λ d, d ∉ ed) (parents rel) →
  ∃ out tr,
    collect_files fp ef ed af t = Some (out, tr) ∧
    out = String.concat EmptyString (record_of fp <$> emitted fp ef ed af t) ∧
    ((rel, rd) ∈ emitted fp ef ed af t ↔ qualifies fp ef af rel = true) ∧
    (qualifies fp ef af rel = true → EvOpenRead (fp ++ rel) ∈ tr) ∧
    (∀ n, n ∉ dir_names t →
          collect_files fp ef ({[n]} ∪ ed) af t = Some (out, tr)).
Proof.
  intros Hf _ Hp. rewrite collect_files_eq. eexists _, _.
  split; [reflexivity|]. split; [reflexivity|]. repeat split.
  - by intros (_ & _ & Hq)%elem_of_emitted.
  - intros Hq. by apply elem_of_emitted.
  - intros Hq. apply (emitted_opened fp ef ed af t rel rd).
    by apply elem_of_emitted.
  - intros n Hn. rewrite collect_files_eq. unfold emitted.
    by rewrite (visits_exclude_fresh n ed t Hn).
Qed.

Lemma exclude_dirs_spares_files_witness :
  ∃ out tr,
    collect_files proj ∅ DEFAULT_EXCLUDE_DIRS true sample_tree = Some (out, tr) ∧
    out = String.concat EmptyString
            (record_of proj <$> emitted proj ∅ DEFAULT_EXCLUDE_DIRS true sample_tree) ∧
    ((["venv"], ReadOk "v") ∈ emitted proj ∅ DEFAULT_EXCLUDE_DIRS true sample_tree ↔
     qualifies proj ∅ true ["venv"] = true) ∧
    (qualifies proj ∅ true ["venv"] = true → EvOpenRead (proj ++ ["venv"]) ∈ tr) ∧
    (∀ n, n ∉ dir_names sample_tree →
          collect_files proj ∅ ({[n]} ∪ DEFAULT_EXCLUDE_DIRS) true sample_tree =
          Some (out, tr)).
Proof.
  apply (exclude_dirs_spares_files proj ∅ DEFAULT_EXCLUDE_DIRS true sample_tree
           ["venv"] (ReadOk "v")).
  - vm_compute. by left.
  - by vm_compute.
  - vm_compute. constructor.
Defined.



(** ** Where the code leaves the specification *)

(** C1.  In Scenario A the specification lets [b.java] through, since its
    extension is in the default allow-list, while [collect_files], which
    takes no allow-list and tests the name for the ending [.py], returns
    the record of [a.py] alone. *)
Theorem allow_list_is_not_consulted :
  collect_files proj ∅ ∅ false scenario_tree =
    Some ("[proj/a.py]" +:+ nl +:+ "x" +:+ nl +:+ nl,
          [EvScandir proj; EvOpenRead (proj ++ ["a.py"])]) ∧
  qualifies proj ∅ false ["b.java"] = false ∧
  Spec.qualifies false Spec.DEFAULT_EXTENSIONS ∅ ∅ (proj ++ ["b.java"]) "b.java" = true.
Proof. by vm_compute. Qed.

(** C3.  The specification gives [Test.PY] and [test.py] the same
    extension, while [collect_files] compares the end of the name with
    [.py] exactly: with the same content, the first gets no record and the
    second gets one. *)
Theorem extension_test_is_case_sensitive :
  collect_files proj ∅ ∅ false upper_tree = Some (EmptyString, [EvScandir proj]) ∧
  collect_files proj ∅ ∅ false lower_tree =
    Some ("[proj/test.py]" +:+ nl +:+ "uppercase py" +:+ nl +:+ nl,
          [EvScandir proj; EvOpenRead (proj ++ ["test.py"])]) ∧
  endswith "Test.PY" ".py" = false ∧
  endswith "test.py" ".py" = true ∧
  Spec.extension "Test.PY" = Spec.extension "test.py".
Proof. by vm_compute. Qed.

(** * Further properties *)

(** ** Lists *)

Lemma omap_mono_sublist {A B} (f g : A → option B) (l : list A) :
  (∀ x y, f x = Some y → g x = Some y) → omap f l `sublist_of` omap g l.
Proof.
  intros Hfg. induction l as [|x l IH]; [constructor|]. simpl.
  destruct (f x) as [y|] eqn:Hf.
  - rewrite (Hfg x y Hf). by constructor.
  - destruct (g x); [by constructor | done].
Qed.

Lemma omap_sublist_arg {A B} (f : A → option B) (l k : list A) :
  l `sublist_of` k → omap f l `sublist_of` omap f k.
Proof.
  induction 1 as [|x l k _ IH|x l k _ IH]; simpl; [constructor| |].
  - destruct (f x); [by constructor | done].
  - destruct (f x); [by constructor | done].
Qed.

Lemma bind_mono_sublist {A B} (f g : A → list B) (l : list A) :
  (∀ x, f x `sublist_of` g x) → l ≫= f `sublist_of` l ≫= g.
Proof.
  intros Hfg. induction l as [|x l IH]; [constructor|].
  rewrite !bind_cons. by apply sublist_app.
Qed.

(** ** Moving the start of a walk *)

Lemma shift_shift pre d v : shift pre (shift [d] v) = shift (joinpath pre d) v.
Proof. unfold joinpath. destruct v; simpl; by rewrite <- app_assoc. Qed.

Lemma visits_shift ed t : ∀ rel, visits ed rel t = shift rel <$> visits ed [] t.
Proof.
  induction t as [dirs files IH] using tree_ind'. intros rel.
  rewrite !visits_unfold, fmap_cons, fmap_app. simpl. rewrite app_nil_r.
  f_equal. f_equal.
  - rewrite <- list_fmap_compose. by apply list_fmap_ext.
  - unfold visits_below.
    induction IH as [|[d sub] ds Hd _ IHds]; [reflexivity|].
    rewrite !bind_cons, fmap_app, IHds. f_equal. simpl.
    destruct (decide (d ∈ ed)); [reflexivity|].
    simpl in Hd. rewrite (Hd (joinpath rel d)), (Hd (joinpath [] d)).
    rewrite <- list_fmap_compose. apply list_fmap_ext. intros ? v _.
    symmetry. apply (shift_shift rel d v).
Qed.

Lemma omap_fmap_within {A B C} (g : A → option C) (g' : B → option C)
    (h : B → A) (k : C → C) (l : list B) :
  (∀ v, v ∈ l → g (h v) = k <$> g' v) →
  omap g (h <$> l) = k <$> omap g' l.
Proof.
  induction l as [|v l IH]; intros H; [reflexivity|].
  csimpl. rewrite (H v) by by left.
  rewrite IH by (intros w Hw; apply H; by right).
  by destruct (g' v).
Qed.

Lemma name_cons d (r : path) : r ≠ [] → name (d :: r) = name r.
Proof. intros Hr. unfold name. destruct r; [done|]. by rewrite last_cons_cons. Qed.

Lemma qualifies_under fp ef af d (r : path) :
  r ≠ [] → qualifies fp ef af (d :: r) = qualifies (joinpath fp d) ef af r.
Proof.
  intros Hr. unfold qualifies, joinpath. rewrite (name_cons d r Hr).
  by rewrite <- app_assoc.
Qed.

(** The files with a record, directory by directory. *)
Lemma emitted_tree fp ef ed af dirs files :
  emitted fp ef ed af (Tree dirs files) =
  kept_files fp ef af files ++
  (dirs ≫= λ d, if decide (d.1 ∈ ed) then []
                else under d.1 <$> emitted (joinpath fp d.1) ef ed af d.2).
Proof.
  unfold emitted. rewrite visits_unfold. csimpl. rewrite omap_app. f_equal.
  - unfold kept_files. induction files as [|[f rd] files IH]; [reflexivity|].
    csimpl. by rewrite IH.
  - unfold visits_below.
    induction dirs as [|[d sub] ds IH]; [reflexivity|].
    rewrite !bind_cons, omap_app, IH. f_equal. csimpl.
    destruct (decide (d ∈ ed)); [reflexivity|].
    rewrite (visits_shift ed sub (joinpath [] d)).
    apply omap_fmap_within. intros [r|r rd] Hv; [reflexivity|]. simpl.
    assert (r ≠ []) as Hr.
    { apply elem_of_visits_file in Hv as (r' & -> & Hf & _). simpl.
      intros ->. by apply elem_of_nil in Hf. }
    rewrite (qualifies_under fp ef af d r Hr).
    by destruct (qualifies (joinpath fp d) ef af r).
Qed.

(** ** More or fewer files *)

Lemma qualifies_all_files fp ef rel :
  qualifies fp ef false rel = true → qualifies fp ef true rel = true.
Proof. unfold qualifies. simpl. by intros [_ ?]%andb_prop. Qed.

Lemma qualifies_fewer_exclusions (fp : path) (ef ef' : gset path) af rel :
  ef ⊆ ef' → qualifies fp ef' af rel = true → qualifies fp ef af rel = true.
Proof.
  unfold qualifies. intros Hsub [Ha Hb%bool_decide_eq_true]%andb_prop.
  rewrite Ha. simpl. apply bool_decide_eq_true. intros Hin. by apply Hb, Hsub.
Qed.

Lemma visits_more_exclusions (ed ed' : gset string) t :
  ed ⊆ ed' → ∀ rel, visits ed' rel t `sublist_of` visits ed rel t.
Proof.
  intros Hsub. induction t as [dirs files IH] using tree_ind'. intros rel.
  rewrite !visits_unfold. constructor. apply sublist_app; [done|].
  unfold visits_below.
  induction IH as [|[d sub] ds Hd _ IHds]; [constructor|].
  rewrite !bind_cons. simpl.
  destruct (decide (d ∈ ed)) as [Hin|Hout].
  - rewrite decide_True by by apply Hsub. done.
  - destruct (decide (d ∈ ed')); [by apply sublist_inserts_l|].
    apply sublist_app; [apply Hd | done].
Qed.

Lemma parts_mono (fp : path) (ef ef' : gset path) af af' (vs vs' : list visit) :
  ef ⊆ ef' → (af' = true → af = true) → vs' `sublist_of` vs →
  vs' ≫= parts_of fp ef' af' `sublist_of` vs ≫= parts_of fp ef af.
Proof.
  intros Hef Haf Hvs. etrans.
  - by apply bind_sublist.
  - apply bind_mono_sublist. intros [r|r rd]; simpl; [done|].
    destruct (qualifies fp ef' af' r) eqn:Hq; [|apply sublist_nil_l].
    assert (qualifies fp ef af r = true) as ->; [|done].
    apply (qualifies_fewer_exclusions fp ef ef' af r Hef).
    destruct af'; [by rewrite (Haf eq_refl) in *|].
    destruct af; [by apply qualifies_all_files | done].
Qed.

Lemma events_mono (fp : path) (ef ef' : gset path) af af' (vs vs' : list visit) :
  ef ⊆ ef' → (af' = true → af = true) → vs' `sublist_of` vs →
  vs' ≫= events_of fp ef' af' `sublist_of` vs ≫= events_of fp ef af.
Proof.
  intros Hef Haf Hvs. etrans.
  - by apply bind_sublist.
  - apply bind_mono_sublist. intros [r|r rd]; simpl; [done|].
    destruct (qualifies fp ef' af' r) eqn:Hq; [|apply sublist_nil_l].
    assert (qualifies fp ef af r = true) as ->; [|done].
    apply (qualifies_fewer_exclusions fp ef ef' af r Hef).
    destruct af'; [by rewrite (Haf eq_refl) in *|].
    destruct af; [by apply qualifies_all_files | done].
Qed.

Lemma collect_parts_visits fp ef ed af t :
  collect_parts fp ef ed af t =
  Some (visits ed [] t ≫= parts_of fp ef af, visits ed [] t ≫= events_of fp ef af).
Proof. rewrite collect_parts_eq. by rewrite parts_of_emitted. Qed.

(** ** The journal and the records *)

Lemma opened_events fp ef ed af t :
  opened (visits ed [] t ≫= events_of fp ef af) =
  (λ x, fp ++ x.1) <$> emitted fp ef ed af t.
Proof.
  unfold emitted, opened. induction (visits ed [] t) as [|v vs IH]; [reflexivity|].
  rewrite bind_cons, omap_app, IH. destruct v as [r|r rd]; csimpl; [reflexivity|].
  destruct (qualifies fp ef af r); csimpl; [|reflexivity].
  by destruct rd.
Qed.

Lemma warned_events fp ef ed af t :
  warned (visits ed [] t ≫= events_of fp ef af) =
  omap (failure fp) (emitted fp ef ed af t).
Proof.
  unfold emitted, warned. induction (visits ed [] t) as [|v vs IH]; [reflexivity|].
  rewrite bind_cons, omap_app, IH. destruct v as [r|r rd]; csimpl; [reflexivity|].
  destruct (qualifies fp ef af r); csimpl; [|reflexivity].
  by destruct rd.
Qed.

(** ** No file twice *)

Lemma distinct_names_unfold dirs files :
  distinct_names (Tree dirs files) =
  bool_decide (NoDup files.*1) && bool_decide (NoDup dirs.*1) &&
  forallb (λ d, distinct_names d.2) dirs.
Proof.
  simpl. f_equal. induction dirs as [|[d sub] ds IH]; [reflexivity|].
  simpl. by rewrite IH.
Qed.

Lemma emitted_nonempty fp ef ed af t rel rd :
  (rel, rd) ∈ emitted fp ef ed af t → rel ≠ [].
Proof.
  intros (Hf & _ & _)%elem_of_emitted ->. by apply elem_of_nil in Hf.
Qed.

Lemma kept_files_sublist fp ef af files :
  (kept_files fp ef af files).*1 `sublist_of` (λ n, [n]) <$> files.*1.
Proof.
  unfold kept_files. induction files as [|[f rd] files IH]; [constructor|].
  csimpl. destruct (qualifies fp ef af [f]); csimpl; by constructor.
Qed.

Lemma elem_of_below fp ef ed af (ds : list (string * tree)) x :
  x ∈ (ds ≫= λ d, if decide (d.1 ∈ ed) then []
                  else under d.1 <$> emitted (joinpath fp d.1) ef ed af d.2).*1 →
  ∃ d r, x = d :: r ∧ d ∈ ds.*1 ∧ r ≠ [].
Proof.
  intros ([r rd] & -> & Hin)%list_elem_of_fmap.
  apply list_elem_of_bind in Hin as ([d sub] & Hin & Hd). simpl in Hin.
  destruct (decide (d ∈ ed)); [by apply elem_of_nil in Hin|].
  apply list_elem_of_fmap in Hin as ([r' rd'] & Heq & Hin).
  injection Heq as -> ->. exists d, r'. split; [done|]. split.
  - apply list_elem_of_fmap. by exists (d, sub).
  - by apply emitted_nonempty in Hin.
Qed.

Lemma emitted_NoDup ef ed af t :
  distinct_names t = true → ∀ fp, NoDup (emitted fp ef ed af t).*1.
Proof.
  induction t as [dirs files IH] using tree_ind'. intros Hwf fp.
  rewrite distinct_names_unfold in Hwf.
  apply andb_prop in Hwf as [[Hfiles%bool_decide_eq_true Hdirs%bool_decide_eq_true]%andb_prop Hsub].
  rewrite emitted_tree, fmap_app. apply NoDup_app. split; [|split].
  - eapply sublist_NoDup; [|apply kept_files_sublist].
    apply NoDup_fmap_2; [|done]. by intros ?? [=].
  - intros x Hx Hbelow. apply elem_of_below in Hbelow as (d & r & -> & _ & Hr).
    apply (λ H, elem_of_sublist _ _ _ H (kept_files_sublist fp ef af files)) in Hx.
    apply list_elem_of_fmap in Hx as (n & Heq & _). injection Heq as _ ->. done.
  - clear Hfiles. induction IH as [|[d sub] ds Hd _ IHds]; [constructor|].
    simpl in Hsub. apply andb_prop in Hsub as [Hwf Hsub].
    rewrite fmap_cons in Hdirs. apply NoDup_cons in Hdirs as [Hnew Hdirs].
    rewrite bind_cons, fmap_app. apply NoDup_app. split; [|split].
    + simpl. destruct (decide (d ∈ ed)); [constructor|].
      assert ((under d <$> emitted (joinpath fp d) ef ed af sub).*1 =
              cons d <$> (emitted (joinpath fp d) ef ed af sub).*1) as ->
        by (rewrite <- !list_fmap_compose; by apply list_fmap_ext).
      apply NoDup_fmap_2; [by intros ?? [=] | by apply Hd].
    + intros x Hx Hbelow.
      apply elem_of_below in Hbelow as (d' & r & -> & Hd' & _).
      simpl in Hx. destruct (decide (d ∈ ed)); [by apply elem_of_nil in Hx|].
      apply list_elem_of_fmap in Hx as (y & Heq & Hy).
      apply list_elem_of_fmap in Hy as (z & -> & _).
      simpl in Heq. injection Heq as -> _. done.
    + by apply IHds.
Qed.

(** ** The end of a name *)

Lemma length_app (a b : string) :
  String.length (a +:+ b) = String.length a + String.length b.
Proof.
  induction a as [|c a IH]; [reflexivity|].
  change (S (String.length (a +:+ b)) = S (String.length a + String.length b)).
  by rewrite IH.
Qed.

Lemma substring_full (s : string) : substring 0 (String.length s) s = s.
Proof. induction s as [|c s IH]; [reflexivity|]. simpl. by rewrite IH. Qed.

Lemma substring_skip (pre s : string) m :
  substring (String.length pre) m (pre +:+ s) = substring 0 m s.
Proof. induction pre as [|c pre IH]; [reflexivity|]. exact IH. Qed.

Lemma substring_split (s : string) : ∀ k : nat,
  (k ≤ String.length s)%nat →
  s = substring 0 k s +:+ substring k (String.length s - k) s.
Proof.
  induction s as [|c s IH]; intros [|k] Hk; simpl in *; try lia.
  - reflexivity.
  - by rewrite substring_full.
  - change (String c s =
            String c (substring 0 k s +:+ substring k (String.length s - k) s)).
    f_equal. apply IH. lia.
Qed.

(** [endswith] is true exactly for the strings that are some text followed
    by the suffix. *)
Lemma endswith_iff (s suffix : string) :
  endswith s suffix = true ↔ ∃ pre, s = pre +:+ suffix.
Proof.
  unfold endswith. split.
  - intros [Hle%Nat.leb_le Heq%String.eqb_eq]%andb_prop.
    exists (substring 0 (String.length s - String.length suffix) s).
    pose proof (substring_split s (String.length s - String.length suffix)) as Hs.
    replace (String.length s - (String.length s - String.length suffix))
      with (String.length suffix) in Hs by lia.
    rewrite Heq in Hs. apply Hs. lia.
  - intros [pre ->]. rewrite length_app. apply andb_true_intro. split.
    + apply Nat.leb_le. lia.
    + replace (String.length pre + String.length suffix - String.length suffix)
        with (String.length pre) by lia.
      rewrite substring_skip, substring_full. apply String.eqb_refl.
Qed.

Lemma name_app (fp rel : path) : rel ≠ [] → name (fp ++ rel) = name rel.
Proof.
  intros Hrel. unfold name.
  destruct (last rel) as [x|] eqn:Hlast; [|by apply last_None in Hlast].
  assert (last (fp ++ rel) = Some x) as ->; [|done].
  apply last_app_Some. by left.
Qed.

(** ** Which files get a record *)

Lemma qualifies_iff fp ef af rel :
  qualifies fp ef af rel = true ↔
  (af = true ∨ ∃ pre, name rel = pre +:+ ".py") ∧ fp ++ rel ∉ ef.
Proof.
  unfold qualifies. rewrite andb_true_iff, orb_true_iff, bool_decide_eq_true.
  by rewrite endswith_iff.
Qed.

Lemma elem_of_opened fp ef ed af t rel :
  fp ++ rel ∈ opened (visits ed [] t ≫= events_of fp ef af) ↔
  ∃ rd, (rel, rd) ∈ emitted fp ef ed af t.
Proof.
  rewrite opened_events, list_elem_of_fmap. split.
  - intros ([r rd] & Heq & Hin). simpl in Heq.
    apply app_inv_head in Heq as ->. by exists rd.
  - intros [rd Hin]. by exists (rel, rd).
Qed.

Lemma record_nonempty fp x : record_of fp x ≠ EmptyString.
Proof. done. Qed.

Lemma join_empty (l : list string) :
  (∀ s, s ∈ l → s ≠ EmptyString) →
  String.concat EmptyString l = EmptyString ↔ l = [].
Proof.
  intros Hl. split; [|by intros ->].
  destruct l as [|s l]; [done|]. rewrite join_cons. intros Heq. exfalso.
  apply (Hl s); [by left|]. destruct s; [done|]. discriminate Heq.
Qed.

Lemma emitted_same_files (fp fp' : path) (ef ef' : gset path) ed af t :
  (∀ rel, fp ++ rel ∈ ef ↔ fp' ++ rel ∈ ef') →
  emitted fp ef ed af t = emitted fp' ef' ed af t.
Proof.
  intros Hex. unfold emitted. apply list_omap_ext. apply Forall2_same_length_lookup.
  split; [done|]. intros i v w Hv Hw. assert (v = w) as -> by congruence.
  destruct w as [r|r rd]; [done|].
  assert (qualifies fp ef af r = qualifies fp' ef' af r) as ->; [|done].
  unfold qualifies. f_equal. apply bool_decide_ext. by rewrite Hex.
Qed.

Lemma record_of_same_name fp fp' x : name fp = name fp' → record_of fp x = record_of fp' x.
Proof. intros H. unfold record_of, format_part. by rewrite H. Qed.

(** ** The run of [main] *)


Lemma collect_folders_full is_dir cs ed af folders :
  collect_folders is_dir cs ed af folders =
  Some (omap (folder_text is_dir cs ed af) folders,
        folders ≫= folder_journal is_dir cs ed af).
Proof.
  induction folders as [|fp folders IH]; [reflexivity|].
  rewrite bind_cons. simpl. unfold folder_text at 1, folder_journal at 1.
  destruct (is_dir fp) as [t|]; simpl; [|exact IH].
  by rewrite collect_files_eq, IH.
Qed.

Lemma main_eq is_dir can_write cs cwd folders exclude af :
  main is_dir can_write cs cwd folders exclude af =
  if can_write (output_file cwd)
  then Some ((folders ≫= folder_journal is_dir cs
                           (DEFAULT_EXCLUDE_DIRS ∪ list_to_set exclude) af) ++
             [EvOpenWrite (output_file cwd)
                (String.concat EmptyString
                   (omap (folder_text is_dir cs
                            (DEFAULT_EXCLUDE_DIRS ∪ list_to_set exclude) af)
                         folders))])
  else None.
Proof. unfold main. by rewrite collect_folders_full. Qed.


Lemma elem_of_opened_iff tr p : p ∈ opened tr ↔ EvOpenRead p ∈ tr.
Proof.
  unfold opened. rewrite list_elem_of_omap. split.
  - intros (ev & Hev & Heq). destruct ev; try done. by injection Heq as ->.
  - intros Hin. by exists (EvOpenRead p).
Qed.

Lemma elem_of_listed_iff tr p : p ∈ listed tr ↔ EvScandir p ∈ tr.
Proof.
  unfold listed. rewrite list_elem_of_omap. split.
  - intros (ev & Hev & Heq). destruct ev; try done. by injection Heq as ->.
  - intros Hin. by exists (EvScandir p).
Qed.

Lemma elem_of_main_journal is_dir can_write cs cwd folders exclude af tr ev :
  main is_dir can_write cs cwd folders exclude af = Some tr →
  ev ∈ tr →
  ev = EvOpenWrite (output_file cwd)
         (String.concat EmptyString
            (omap (folder_text is_dir cs
                     (DEFAULT_EXCLUDE_DIRS ∪ list_to_set exclude) af) folders)) ∨
  ∃ fp t, fp ∈ folders ∧ is_dir fp = Some t ∧
          ev ∈ visits (DEFAULT_EXCLUDE_DIRS ∪ list_to_set exclude) [] t
                 ≫= events_of fp {[ cs ]} af.
Proof.
  rewrite main_eq. destruct (can_write (output_file cwd)); [|done].
  intros [= <-]. rewrite elem_of_app, list_elem_of_singleton.
  intros [Hev| ->]; [right | by left].
  apply list_elem_of_bind in Hev as (fp & Hev & Hfp). unfold folder_journal in Hev.
  destruct (is_dir fp) as [t|] eqn:Ht; [|by apply elem_of_nil in Hev].
  by exists fp, t.
Qed.

Lemma kept_names (exclude : list string) (rel : path) :
  Forall (λ d, d ∉ DEFAULT_EXCLUDE_DIRS ∪ (list_to_set exclude : gset string)) rel →
  Forall (λ d, (d ∉ DEFAULT_EXCLUDE_DIRS) ∧ (d ∉ exclude)) rel.
Proof.
  intros H. eapply Forall_impl; [exact H|]. simpl.
  intros d Hd. rewrite not_elem_of_union in Hd.
  destruct Hd as [? Hd]. split; [done|]. intros Hin. by apply Hd, elem_of_list_to_set.
Qed.

(** A file that [main] opens without [all_files] has a name that ends
    with [.py]. *)
Lemma default_mode_opens_py_only is_dir can_write cs cwd
    folders exclude af tr p :
  main is_dir can_write cs cwd folders exclude af = Some tr →
  p ∈ opened tr → af = false → ∃ pre, name p = pre +:+ ".py".
Proof.
  intros Hmain Hp%elem_of_opened_iff ->.
  destruct (elem_of_main_journal _ _ _ _ _ _ _ _ _ Hmain Hp)
    as [?|(fp & t & Hfp & Ht & Hev)]; [done|].
  apply journal_origin in Hev as [(r & ? & _)|(r & rd & Hin & Hev)]; [done|].
  assert (p = fp ++ r) as -> by (destruct Hev as [[= ->]|(e & _ & ?)]; done).
  apply elem_of_emitted in Hin as (Hf & _ & Hq).
  apply qualifies_iff in Hq as [Hname _].
  assert (r ≠ []) as Hr by (intros ->; by apply elem_of_nil in Hf).
  rewrite (name_app fp r Hr). by destruct Hname.
Qed.

(** * More about [collect_files] *)

(** X1.  The records come top-down: first those of the files of the folder
    itself that pass the two tests, in the order of the listing, then, for
    each subdirectory that is not excluded, in the order of the listing,
    those of the files that collecting this subdirectory gives, each file
    seen from the folder. *)
Theorem records_come_top_down fp ef ed af dirs files :
  ∃ tr,
    collect_parts fp ef ed af (Tree dirs files) =
    Some (record_of fp <$>
            (kept_files fp ef af files ++
             (dirs ≫= λ d, if decide (d.1 ∈ ed) then []
                           else under d.1 <$>
                                emitted (joinpath fp d.1) ef ed af d.2)), tr) ∧
    ∀ d sub, (d, sub) ∈ dirs → ∃ tr',
      collect_parts (joinpath fp d) ef ed af sub =
      Some (record_of (joinpath fp d) <$> emitted (joinpath fp d) ef ed af sub, tr').
Proof.
  eexists. rewrite collect_parts_eq, emitted_tree. split; [reflexivity|].
  intros d sub _. rewrite collect_parts_eq. by eexists.
Qed.

(** X2.  Setting [all_files] only adds: the records of a call without it
    are among the records of the same call with it, in the same order, and
    so are the operations. *)
Theorem all_files_only_adds fp ef ed t :
  ∃ parts tr parts' tr',
    collect_parts fp ef ed false t = Some (parts, tr) ∧
    collect_parts fp ef ed true t = Some (parts', tr') ∧
    parts `sublist_of` parts' ∧ tr `sublist_of` tr'.
Proof.
  rewrite !collect_parts_visits. eexists _, _, _, _.
  split; [reflexivity|]. split; [reflexivity|]. split.
  - by apply parts_mono.
  - by apply events_mono.
Qed.

(** X3.  More exclusions only remove: with more excluded files and more
    excluded directory names, the records are among the records of the
    call with fewer, in the same order, and so are the operations. *)
Theorem more_exclusions_only_remove (fp : path) (ef ef' : gset path)
    (ed ed' : gset string) af t :
  ef ⊆ ef' → ed ⊆ ed' →
  ∃ parts tr parts' tr',
    collect_parts fp ef ed af t = Some (parts, tr) ∧
    collect_parts fp ef' ed' af t = Some (parts', tr') ∧
    parts' `sublist_of` parts ∧ tr' `sublist_of` tr.
Proof.
  intros Hef Hed. rewrite !collect_parts_visits. eexists _, _, _, _.
  split; [reflexivity|]. split; [reflexivity|]. split.
  - apply parts_mono; [done..|]. by apply visits_more_exclusions.
  - apply events_mono; [done..|]. by apply visits_more_exclusions.
Qed.

Lemma more_exclusions_only_remove_witness :
  ∃ parts tr parts' tr',
    collect_parts proj ∅ ∅ true sample_tree = Some (parts, tr) ∧
    collect_parts proj {[ proj ++ ["a.py"] ]} {[ "build" ]} true sample_tree =
      Some (parts', tr') ∧
    parts' `sublist_of` parts ∧ tr' `sublist_of` tr.
Proof.
  apply (more_exclusions_only_remove proj ∅ {[ proj ++ ["a.py"] ]}
           ∅ {[ "build" ]} true sample_tree).
  - apply empty_subseteq.
  - apply empty_subseteq.
Defined.

(** X4.  Each record costs one open: the files a call opens are, in order,
    the files of its records, one open for each record, and the warnings
    it logs are, in order, those of the records whose file could not be
    read, each with the text of the error. *)
Theorem one_open_per_record fp ef ed af t :
  ∃ parts tr,
    collect_parts fp ef ed af t = Some (parts, tr) ∧
    parts = record_of fp <$> emitted fp ef ed af t ∧
    opened tr = (λ x, fp ++ x.1) <$> emitted fp ef ed af t ∧
    length (opened tr) = length parts ∧
    warned tr = omap (failure fp) (emitted fp ef ed af t).
Proof.
  rewrite collect_parts_eq. eexists _, _. split; [reflexivity|].
  split; [reflexivity|]. rewrite opened_events, warned_events.
  split; [reflexivity|]. split; [|reflexivity]. by rewrite !length_fmap.
Qed.

(** X5.  When the names in every directory are distinct, no file gets two
    records and no file is opened twice. *)
Theorem no_file_twice fp ef ed af t :
  distinct_names t = true →
  ∃ parts tr,
    collect_parts fp ef ed af t = Some (parts, tr) ∧
    parts = record_of fp <$> emitted fp ef ed af t ∧
    NoDup (emitted fp ef ed af t).*1 ∧
    NoDup (opened tr).
Proof.
  intros Hwf. rewrite collect_parts_eq. eexists _, _. split; [reflexivity|].
  split; [reflexivity|]. pose proof (emitted_NoDup ef ed af t Hwf fp) as Hnd.
  split; [done|]. rewrite opened_events.
  assert ((λ x : path * read_result, fp ++ x.1) <$> emitted fp ef ed af t =
          app fp <$> (emitted fp ef ed af t).*1) as ->
    by (rewrite <- list_fmap_compose; by apply list_fmap_ext).
  apply NoDup_fmap_2; [|done]. intros ?? H. by apply app_inv_head in H.
Qed.

Lemma no_file_twice_witness :
  ∃ parts tr,
    collect_parts proj ∅ DEFAULT_EXCLUDE_DIRS true sample_tree = Some (parts, tr) ∧
    parts = record_of proj <$> emitted proj ∅ DEFAULT_EXCLUDE_DIRS true sample_tree ∧
    NoDup (emitted proj ∅ DEFAULT_EXCLUDE_DIRS true sample_tree).*1 ∧
    NoDup (opened tr).
Proof.
  apply (no_file_twice proj ∅ DEFAULT_EXCLUDE_DIRS true sample_tree).
  vm_compute. reflexivity.
Defined.

(** X6.  Which files a call opens: exactly the files of the tree that lie
    beneath no excluded directory, whose full path is not an excluded
    file, and, unless [all_files] is set, whose name is some text, which
    may be empty, followed by [.py].  These are the files with a record. *)
Theorem files_with_a_record fp ef ed af t rel :
  ∃ parts tr,
    collect_parts fp ef ed af t = Some (parts, tr) ∧
    parts = record_of fp <$> emitted fp ef ed af t ∧
    (fp ++ rel ∈ opened tr ↔ ∃ rd, (rel, rd) ∈ emitted fp ef ed af t) ∧
    (fp ++ rel ∈ opened tr ↔
       files_at rel t ≠ [] ∧
       Forall (λ d, d ∉ ed) (parents rel) ∧
       (af = true ∨ ∃ pre, name rel = pre +:+ ".py") ∧
       fp ++ rel ∉ ef).
Proof.
  rewrite collect_parts_eq. eexists _, _. split; [reflexivity|].
  split; [reflexivity|]. split; [apply elem_of_opened|].
  rewrite elem_of_opened. split.
  - intros [rd (Hf & Hp & Hq)%elem_of_emitted].
    apply qualifies_iff in Hq as [Hname Hex].
    split; [|done]. intros Hnil. rewrite Hnil in Hf. by apply elem_of_nil in Hf.
  - intros (Hf & Hp & Hname & Hex).
    destruct (files_at rel t) as [|rd rds] eqn:Hrds; [done|].
    exists rd. apply elem_of_emitted. rewrite Hrds.
    split; [by left|]. split; [done|]. by apply qualifies_iff.
Qed.

(** X7.  The text of a call is empty exactly when the call opened no
    file. *)
Theorem empty_text_iff_nothing_opened fp ef ed af t :
  ∃ out tr,
    collect_files fp ef ed af t = Some (out, tr) ∧
    (out = EmptyString ↔ opened tr = []).
Proof.
  rewrite collect_files_eq. eexists _, _. split; [reflexivity|].
  rewrite opened_events, join_empty.
  - split; intros H.
    + apply fmap_nil_inv in H. by rewrite H.
    + apply fmap_nil_inv in H. by rewrite H.
  - intros s (x & -> & _)%list_elem_of_fmap. apply record_nonempty.
Qed.

(** X8.  When no read fails, the text shows of the folder only its last
    component: a second folder with the same name, the same names and
    contents beneath it and the same files excluded gives the same text. *)
Theorem text_shows_only_the_folder_name (fp fp' : path) (ef ef' : gset path)
    ed af t out tr :
  name fp = name fp' →
  (∀ rel, fp ++ rel ∈ ef ↔ fp' ++ rel ∈ ef') →
  collect_files fp ef ed af t = Some (out, tr) →
  warned tr = [] →
  ∃ tr', collect_files fp' ef' ed af t = Some (out, tr') ∧ warned tr' = [].
Proof.
  intros Hname Hex. rewrite !collect_files_eq. intros [= <- <-] Hw.
  rewrite warned_events in Hw. eexists. split.
  - do 2 f_equal. rewrite (emitted_same_files fp fp' ef ef' ed af t Hex).
    f_equal. apply list_fmap_ext. intros _ x _. symmetry.
    by apply record_of_same_name.
  - rewrite warned_events, <- (emitted_same_files fp fp' ef ef' ed af t Hex).
    induction (emitted fp ef ed af t) as [|[r [c|e]] E IH]; [done| |done].
    csimpl in *. by apply IH.
Qed.

Lemma text_shows_only_the_folder_name_witness :
  ∃ tr',
    collect_files ["backup"; "src"] ∅ DEFAULT_EXCLUDE_DIRS false scenario_tree =
      Some ("[src/a.py]" +:+ nl +:+ "x" +:+ nl +:+ nl, tr') ∧
    warned tr' = [].
Proof.
  apply (text_shows_only_the_folder_name ["work"; "src"] ["backup"; "src"] ∅ ∅
           DEFAULT_EXCLUDE_DIRS false scenario_tree _
           [EvScandir ["work"; "src"]; EvOpenRead ["work"; "src"; "a.py"]]).
  - reflexivity.
  - intros rel. split; intros H; by apply not_elem_of_empty in H.
  - by vm_compute.
  - reflexivity.
Defined.

(** * More about [main] *)


(** X10.  One run over two lists of folders, one after the other, writes
    the text that a run over the first writes, followed by the text that a
    run over the second writes, after the operations of both. *)
Theorem main_joins_the_runs is_dir can_write cs cwd folders folders' exclude af :
  can_write (output_file cwd) = true →
  ∃ tr text tr' text',
    main is_dir can_write cs cwd folders exclude af =
      Some (tr ++ [EvOpenWrite (output_file cwd) text]) ∧
    main is_dir can_write cs cwd folders' exclude af =
      Some (tr' ++ [EvOpenWrite (output_file cwd) text']) ∧
    main is_dir can_write cs cwd (folders ++ folders') exclude af =
      Some ((tr ++ tr') ++ [EvOpenWrite (output_file cwd) (text +:+ text')]).
Proof.
  intros Hw. rewrite !main_eq, Hw. eexists _, _, _, _.
  split; [reflexivity|]. split; [reflexivity|].
  by rewrite bind_app, omap_app, join_app.
Qed.

Lemma main_joins_the_runs_witness :
  ∃ tr text tr' text',
    main sample_fs (λ _, true) ["opt"; "collect_code.py"] ["tmp"] [proj] [] false =
      Some (tr ++ [EvOpenWrite (output_file ["tmp"]) text]) ∧
    main sample_fs (λ _, true) ["opt"; "collect_code.py"] ["tmp"]
         [["nowhere"]; proj] [] false =
      Some (tr' ++ [EvOpenWrite (output_file ["tmp"]) text']) ∧
    main sample_fs (λ _, true) ["opt"; "collect_code.py"] ["tmp"]
         ([proj] ++ [["nowhere"]; proj]) [] false =
      Some ((tr ++ tr') ++ [EvOpenWrite (output_file ["tmp"]) (text +:+ text')]).
Proof.
  apply (main_joins_the_runs sample_fs (λ _, true) ["opt"; "collect_code.py"]
           ["tmp"] [proj] [["nowhere"]; proj] [] false).
  reflexivity.
Defined.

(** X11.  A path that is not a directory adds no operation on the
    filesystem and nothing to the text: what the run lists, opens and
    writes is what the run over the other folders lists, opens and
    writes.  What is logged is not compared. *)
Theorem main_skips_what_is_no_directory is_dir can_write cs cwd
    folders fp folders' exclude af tr :
  is_dir fp = None →
  folders ++ folders' ≠ [] →
  main is_dir can_write cs cwd (folders ++ fp :: folders') exclude af = Some tr →
  ∃ tr',
    main is_dir can_write cs cwd (folders ++ folders') exclude af = Some tr' ∧
    operations tr' = operations tr.
Proof.
  intros Hfp _. rewrite !main_eq.
  rewrite !bind_app, !omap_app, bind_cons. csimpl.
  unfold folder_text at 2, folder_journal at 2. rewrite Hfp. csimpl.
  intros Hmain. by eexists.
Qed.

Lemma main_skips_what_is_no_directory_witness :
  ∃ tr',
    main sample_fs (λ _, true) ["opt"; "collect_code.py"] ["tmp"]
         ([proj] ++ []) ["pkg"] false = Some tr' ∧
    operations tr' =
    operations [EvScandir proj; EvOpenRead (proj ++ ["a.py"]);
                EvOpenRead (proj ++ ["build.py"]);
                EvScandir (proj ++ ["build"]);
                EvScandir (proj ++ ["build"; "deep"]);
                EvOpenRead (proj ++ ["build"; "deep"; "gen.py"]);
                EvOpenWrite (output_file ["tmp"])
                  ("[proj/a.py]" +:+ nl +:+ "x" +:+ nl +:+ nl +:+
                   "[proj/build.py]" +:+ nl +:+ "b" +:+ nl +:+ nl +:+
                   "[proj/build/deep/gen.py]" +:+ nl +:+ "g" +:+ nl +:+ nl)].
Proof.
  apply (main_skips_what_is_no_directory sample_fs (λ _, true)
           ["opt"; "collect_code.py"] ["tmp"] [proj] ["nowhere"] [] ["pkg"] false).
  - reflexivity.
  - discriminate.
  - by vm_compute.
Defined.

(** X12.  When none of the folders is a directory, [main] still writes
    the output file, with the empty text, and does nothing else. *)
Theorem main_without_directories is_dir can_write cs cwd folders exclude af :
  (∀ fp, fp ∈ folders → is_dir fp = None) →
  can_write (output_file cwd) = true →
  main is_dir can_write cs cwd folders exclude af =
  Some [EvOpenWrite (output_file cwd) EmptyString].
Proof.
  intros Hnone Hw. rewrite main_eq, Hw.
  assert (folders ≫= folder_journal is_dir cs
            (DEFAULT_EXCLUDE_DIRS ∪ list_to_set exclude) af = []) as ->.
  { induction folders as [|fp folders IH]; [reflexivity|].
    rewrite bind_cons, IH by (intros ??; apply Hnone; by right).
    unfold folder_journal. by rewrite Hnone by by left. }
  assert (omap (folder_text is_dir cs
                  (DEFAULT_EXCLUDE_DIRS ∪ list_to_set exclude) af) folders = []) as ->.
  { induction folders as [|fp folders IH]; [reflexivity|].
    csimpl. rewrite IH by (intros ??; apply Hnone; by right).
    unfold folder_text. by rewrite Hnone by by left. }
  reflexivity.
Qed.

Lemma main_without_directories_witness :
  main sample_fs (λ _, true) ["opt"; "collect_code.py"] ["tmp"]
       [["nowhere"]; ["home"; "dev"]] [] true =
  Some [EvOpenWrite (output_file ["tmp"]) EmptyString].
Proof.
  apply (main_without_directories sample_fs (λ _, true)
           ["opt"; "collect_code.py"] ["tmp"] [["nowhere"]; ["home"; "dev"]] [] true).
  - intros fp Hfp. apply elem_of_cons in Hfp as [->|Hfp]; [reflexivity|].
    apply list_elem_of_singleton in Hfp as ->. reflexivity.
  - reflexivity.
Defined.

(** X13.  What [main] opens for reading: only files of the trees of the
    folders it was given, beneath no directory with a default or a given
    excluded name, never the script itself, and, without [all_files], only
    files whose name ends with [.py]. *)
Theorem main_opens_only_collected_files is_dir can_write cs cwd
    folders exclude af tr p :
  main is_dir can_write cs cwd folders exclude af = Some tr →
  p ∈ opened tr →
  ∃ fp t rel,
    fp ∈ folders ∧ is_dir fp = Some t ∧ p = fp ++ rel ∧
    files_at rel t ≠ [] ∧
    Forall (λ d, (d ∉ DEFAULT_EXCLUDE_DIRS) ∧ (d ∉ exclude)) (parents rel) ∧
    p ≠ cs ∧
    (af = false → ∃ pre, name p = pre +:+ ".py").
Proof.
  intros Hmain Hp%elem_of_opened_iff.
  destruct (elem_of_main_journal _ _ _ _ _ _ _ _ _ Hmain Hp)
    as [?|(fp & t & Hfp & Ht & Hev)]; [done|].
  apply journal_origin in Hev as [(r & ? & _)|(r & rd & Hin & Hev)]; [done|].
  assert (p = fp ++ r) as -> by (destruct Hev as [[= ->]|(e & _ & ?)]; done).
  apply elem_of_emitted in Hin as (Hf & Hpar & Hq).
  apply qualifies_iff in Hq as [Hname Hex].
  assert (r ≠ []) as Hr by (intros ->; by apply elem_of_nil in Hf).
  exists fp, t, r. repeat split; try done.
  - intros Hnil. rewrite Hnil in Hf. by apply elem_of_nil in Hf.
  - by apply kept_names.
  - intros Heq. apply Hex. rewrite Heq. by apply elem_of_singleton.
  - intros ->. rewrite (name_app fp r Hr). by destruct Hname.
Qed.

Lemma main_opens_only_collected_files_witness :
  ∃ fp t rel,
    fp ∈ [proj] ∧ sample_fs fp = Some t ∧ proj ++ ["pkg"; "n.py"] = fp ++ rel ∧
    files_at rel t ≠ [] ∧
    Forall (λ d, (d ∉ DEFAULT_EXCLUDE_DIRS) ∧ (d ∉ ["build"])) (parents rel) ∧
    proj ++ ["pkg"; "n.py"] ≠ ["opt"; "collect_code.py"] ∧
    (false = false → ∃ pre, name (proj ++ ["pkg"; "n.py"]) = pre +:+ ".py").
Proof.
  eapply (main_opens_only_collected_files sample_fs (λ _, true)
            ["opt"; "collect_code.py"] ["tmp"] [proj] ["build"] false).
  - vm_compute. reflexivity.
  - vm_compute. do 3 right. by left.
Defined.

(** X14.  Which directories [main] turns to: only the folders it was
    given and directories beneath them on a way that has no default and no
    given excluded name. *)
Theorem main_lists_only_kept_directories is_dir can_write cs cwd
    folders exclude af tr p :
  main is_dir can_write cs cwd folders exclude af = Some tr →
  p ∈ listed tr →
  ∃ fp t rel,
    fp ∈ folders ∧ is_dir fp = Some t ∧ p = fp ++ rel ∧
    Forall (λ d, (d ∉ DEFAULT_EXCLUDE_DIRS) ∧ (d ∉ exclude)) rel.
Proof.
  intros Hmain Hp%elem_of_listed_iff.
  destruct (elem_of_main_journal _ _ _ _ _ _ _ _ _ Hmain Hp)
    as [?|(fp & t & Hfp & Ht & Hev)]; [done|].
  apply journal_origin in Hev as [(r & [= ->] & Hr)|(r & rd & _ & [?|(e & _ & ?)])];
    [|done..].
  exists fp, t, r. repeat split; try done. by apply kept_names.
Qed.

Lemma main_lists_only_kept_directories_witness :
  ∃ fp t rel,
    fp ∈ [proj] ∧ sample_fs fp = Some t ∧ proj ++ ["pkg"] = fp ++ rel ∧
    Forall (λ d, (d ∉ DEFAULT_EXCLUDE_DIRS) ∧ (d ∉ ["build"])) rel.
Proof.
  eapply (main_lists_only_kept_directories sample_fs (λ _, true)
            ["opt"; "collect_code.py"] ["tmp"] [proj] ["build"] false).
  - vm_compute. reflexivity.
  - vm_compute. do 1 right. by left.
Defined.

(** X15.  With [all_files], a run over the working directory reads the
    output file that an earlier run has left there, before it writes it
    again: only the script is excluded, not the output file. *)
Theorem main_reads_back_its_output is_dir can_write cs cwd folders exclude t tr :
  cwd ∈ folders → is_dir cwd = Some t →
  files_at ["collected_code.txt"] t ≠ [] →
  output_file cwd ≠ cs →
  main is_dir can_write cs cwd folders exclude true = Some tr →
  output_file cwd ∈ opened tr ∧
  ∃ text, last tr = Some (EvOpenWrite (output_file cwd) text).
Proof.
  intros Hcwd Ht Hf Hcs. rewrite main_eq.
  destruct (can_write (output_file cwd)); [|done]. intros [= <-].
  split; [|eexists; apply last_snoc].
  apply elem_of_opened_iff, elem_of_app. left.
  apply list_elem_of_bind. exists cwd. split; [|done].
  unfold folder_journal. rewrite Ht. apply elem_of_opened_iff.
  apply elem_of_opened.
  destruct (files_at ["collected_code.txt"] t) as [|rd rds] eqn:Hrds; [done|].
  exists rd. apply elem_of_emitted. rewrite Hrds.
  split; [by left|]. split; [constructor|].
  apply qualifies_iff. split; [by left|].
  intros Hin%elem_of_singleton. by apply Hcs.
Qed.

Lemma main_reads_back_its_output_witness :
  output_file proj ∈
    opened [EvScandir proj; EvOpenRead (proj ++ ["a.py"]);
            EvOpenRead (proj ++ ["collected_code.txt"]);
            EvOpenWrite (output_file proj)
              ("[proj/a.py]" +:+ nl +:+ "x" +:+ nl +:+ nl +:+
               "[proj/collected_code.txt]" +:+ nl +:+ "old text" +:+ nl +:+ nl)] ∧
  ∃ text,
    last [EvScandir proj; EvOpenRead (proj ++ ["a.py"]);
          EvOpenRead (proj ++ ["collected_code.txt"]);
          EvOpenWrite (output_file proj)
            ("[proj/a.py]" +:+ nl +:+ "x" +:+ nl +:+ nl +:+
             "[proj/collected_code.txt]" +:+ nl +:+ "old text" +:+ nl +:+ nl)] =
    Some (EvOpenWrite (output_file proj) text).
Proof.
  apply (main_reads_back_its_output rerun_fs (λ _, true)
           ["opt"; "collect_code.py"] proj [proj] [] rerun_tree).
  - by left.
  - reflexivity.
  - vm_compute. discriminate.
  - vm_compute. discriminate.
  - vm_compute. reflexivity.
Defined.

(** X16.  Without [all_files], [main] never reads its own output file,
    wherever the working directory is. *)
Theorem main_spares_its_output_by_default is_dir can_write cs cwd
    folders exclude tr :
  main is_dir can_write cs cwd folders exclude false = Some tr →
  output_file cwd ∉ opened tr.
Proof.
  intros Hmain Hin.
  destruct (default_mode_opens_py_only is_dir can_write cs cwd folders
              exclude false tr (output_file cwd) Hmain Hin eq_refl) as [pre Hpre].
  unfold output_file in Hpre. rewrite name_joinpath in Hpre.
  assert (endswith "collected_code.txt" ".py" = true) as Hends
    by (apply endswith_iff; by exists pre).
  vm_compute in Hends. discriminate.
Qed.

Lemma main_spares_its_output_by_default_witness :
  output_file proj ∉
    opened [EvScandir proj; EvOpenRead (proj ++ ["a.py"]);
            EvOpenWrite (output_file proj)
              ("[proj/a.py]" +:+ nl +:+ "x" +:+ nl +:+ nl)].
Proof.
  apply (main_spares_its_output_by_default rerun_fs (λ _, true)
           ["opt"; "collect_code.py"] proj [proj] []).
  vm_compute. reflexivity.
Defined.
